(** * A shallow embedding of the 2-D cell transmission simulation

    The development follows [model.py]: [Point], [Cell] and [Model] become
    modules of the same names, and every method keeps its Python name.

    Data.  Coordinates are Python floats, that is IEEE 754 binary64
    values: they are [float], Rocq's primitive binary64 numbers, with the
    primitive operations [+], [-], [*], [sqrt] and [<?].  These numbers
    have one NaN: the sign and the payload of a NaN are not modelled.
    The disease counter [sickness] and the clock [time] are unbounded
    Python integers: they are [Z].  Counts given to the constructor are
    integers as well.

    Exceptions.  A call returns a value or raises an exception
    ([python.result]).  [Point.distance] raises when the square of a
    coordinate difference is out of range, and the exception ends
    [Model.check_contacts] and [Model.tick] at that point: both return
    the model as the call leaves it, the calls made on the cells, and
    the exception raised, if any.

    Objects.  A [Cell] is mutated in place by its own methods and by
    [Model.enforce_bounds].  The population list is the store of cells and
    a list index is the reference to the cell held at that slot: the
    constructor appends a freshly built [Cell] to every slot, so two slots
    hold the same object only when their indices are equal, and the
    identity test [population[j] != population[i]] is the test [j <> i].
    The [Point] held in [location] is replaced by a new one at every
    [Cell.tick] and the one held in [direction] is built once per cell, so
    no [Point] is shared between two cells and points are plain values.

    The module [constants] of the package is a record of parameters:
    nothing here depends on the values it holds, unless a theorem says
    so.  The functions of the C library that the interpreter calls are
    parameters as well ([runtime]). *)

From Stdlib Require Import ZArith Floats Lia.
From Stdlib Require Import String.
From stdpp Require Import base list.

#[local] Open Scope Z_scope.

(** ** [constants]: the configuration module of the package *)

Module constants.

Class t : Type := mk {
  BOUNDS_WIDTH : float;
  BOUNDS_HEIGHT : float;
  MAX_X : float;
  MIN_X : float;
  MAX_Y : float;
  MIN_Y : float;
  CELL_RADIUS : float;
  VULNERABLE : Z;
  INFECTED : Z;
  IMMUNE : Z;
  RECOVERY_PERIOD : Z
}.

End constants.

(** ** What a call yields: a value or an exception *)

Module python.

(** The exceptions that the model can raise.  [OverflowError] is the one
    that [float ** int] raises from the error number of the C library;
    its arguments are that number and the text the platform gives for
    it. *)
Inductive exn : Type :=
| ValueError (msg : string)
| IndexError
| OverflowError.

Inductive result (A : Type) : Type :=
| Raise (e : exn)
| Return (a : A).
Arguments Raise {A} e.
Arguments Return {A} a.

End python.

(** ** The library functions the model calls

    [random()] is read from a stream: [random_stream n] is the value of
    the call number [n] of the run.  [cos], [sin] and [pi] are those of
    the [math] module.  [pow] is the function of the C library that the
    interpreter calls for [**] on floats: it gives a float and the error
    number it leaves in [errno], if any.  Nothing is assumed of the
    value it computes. *)

Module runtime.

(** An error number other than [ERANGE] is treated as [EDOM] is. *)
Inductive errno : Type := ERANGE | EDOM.

Class t : Type := mk {
  random_stream : nat -> float;
  cos : float -> float;
  sin : float -> float;
  pi : float;
  pow : float -> float -> float * option errno
}.

End runtime.

(** ** [math] *)

Module math.

(** [math.sqrt(x)]: the square root of the C library, which is the
    correctly rounded one, behind the checks that the [math] module makes
    on the result of every function of one argument.  The text of the
    message is the one of CPython 3.13 and earlier. *)
Definition sqrt (x : float) : python.result float :=
  let r := PrimFloat.sqrt x in
  if is_nan r && negb (is_nan x)
  then python.Raise (python.ValueError "math domain error")
  else if is_infinity r && is_finite x
  then python.Raise (python.ValueError "math domain error")
  else python.Return r.

End math.

(** ** [Point] *)

Module Point.

Record t : Type := mk { x : float; y : float }.

Definition add (self other : t) : t :=
  mk (x self + x other)%float (y self + y other)%float.

Section Distance.
Context {R : runtime.t}.

(** [iv ** 2] on a float, as the interpreter computes it.  A NaN, an
    infinity, a zero and the numbers [1.0] and [-1.0] are answered
    without the C library.  Any other number is replaced by its absolute
    value and handed to [pow] with the exponent [2.0].  An infinite
    result counts as a range error even if [pow] reported none, and a
    range error reported with the result zero is dropped.  A range error
    raises [OverflowError], any other error number raises [ValueError];
    both carry the error number and the text the platform gives for it,
    of which the message below is the one of Linux. *)
Definition square (iv : float) : python.result float :=
  if is_nan iv then python.Return iv
  else if is_infinity iv then python.Return (abs iv)
  else if (iv =? 0)%float then python.Return 0%float
  else
    let iv := if (iv <? 0)%float then (- iv)%float else iv in
    if (iv =? 1)%float then python.Return 1%float
    else
      let (ix, errno) := runtime.pow iv 2 in
      let errno :=
        match errno with
        | None => if is_infinity ix then Some runtime.ERANGE else None
        | Some runtime.ERANGE => if (ix =? 0)%float then None else errno
        | Some runtime.EDOM => errno
        end in
      match errno with
      | None => python.Return ix
      | Some runtime.ERANGE => python.Raise python.OverflowError
      | Some runtime.EDOM =>
          python.Raise (python.ValueError "Numerical argument out of domain")
      end.

(** [sqrt((other.x - self.x)**2 + (other.y - self.y)**2)]: the square
    on the left is computed first. *)
Definition distance (self other : t) : python.result float :=
  match square (x other - x self) with
  | python.Raise e => python.Raise e
  | python.Return a =>
      match square (y other - y self) with
      | python.Raise e => python.Raise e
      | python.Return b => math.sqrt (a + b)
      end
  end.

End Distance.

#[global] Arguments distance : simpl never.

End Point.

(** ** [Cell] *)

Module Cell.

Record t : Type := mk {
  location : Point.t;
  direction : Point.t;
  sickness : Z
}.

Section Methods.
Context {K : constants.t}.

(** [Cell(location, direction)]: the class attribute gives a new cell
    the sickness [VULNERABLE]. *)
Definition __init__ (loc dir : Point.t) : t :=
  mk loc dir constants.VULNERABLE.

Definition set_sickness (v : Z) (self : t) : t :=
  mk (location self) (direction self) v.

Definition is_vulnerable (self : t) : bool :=
  sickness self =? constants.VULNERABLE.

Definition is_infected (self : t) : bool :=
  sickness self >=? constants.INFECTED.

Definition is_immune (self : t) : bool :=
  sickness self =? constants.IMMUNE.

Definition contract_disease (self : t) : t :=
  set_sickness constants.INFECTED self.

Definition immunize (self : t) : t :=
  set_sickness constants.IMMUNE self.

Definition tick (self : t) : t :=
  let self1 :=
    mk (Point.add (location self) (direction self)) (direction self)
       (sickness self) in
  let self2 :=
    if is_infected self1 then set_sickness (sickness self1 + 1) self1
    else self1 in
  if sickness self2 >? constants.RECOVERY_PERIOD then immunize self2
  else self2.

Definition color (self : t) : string :=
  if is_infected self then "red"%string
  else if is_immune self then "green"%string
  else "gray"%string.

(** [self.contact_with(other)], where [self] and [other] are
    references into the store of cells.  The second test reads the
    store as the first branch left it. *)
Definition at_ref (p : t -> bool) (store : list t) (r : nat) : bool :=
  match store !! r with
  | Some c => p c
  | None => false
  end.

Definition contact_with (self other : nat) (store : list t) : list t :=
  let store1 :=
    if at_ref is_infected store self && at_ref is_vulnerable store other
    then alter contract_disease other store
    else store in
  if at_ref is_vulnerable store1 self && at_ref is_infected store1 other
  then alter contract_disease self store1
  else store1.

End Methods.

End Cell.

(** ** [Model] *)

Module Model.

Record t : Type := mk {
  population : list Cell.t;
  time : Z
}.

(** *** The constructor

    [__init__] runs in a state and error monad.  The state is the
    population under construction and the number of [random()] calls
    made so far; the state is kept when an exception is raised, so that
    what was built before the failure can be observed. *)

Record building : Type := mk_building {
  built : list Cell.t;
  draws : nat
}.

Definition ctor (A : Type) : Type :=
  building -> python.result A * building.

Definition ret {A} (a : A) : ctor A := fun s => (python.Return a, s).

Definition bind {A B} (m : ctor A) (k : A -> ctor B) : ctor B :=
  fun s =>
    match m s with
    | (python.Return a, s') => k a s'
    | (python.Raise e, s') => (python.Raise e, s')
    end.

Definition raise {A} (e : python.exn) : ctor A :=
  fun s => (python.Raise e, s).

Declare Scope ctor_scope.
Delimit Scope ctor_scope with ctor.
Notation "x <- m ;; k" := (bind m (fun x => k))
  (at level 100, m at next level, right associativity) : ctor_scope.
Notation "m ;;; k" := (bind m (fun _ => k))
  (at level 100, right associativity) : ctor_scope.

(** [for v in vs: body(v)] *)
Fixpoint for_each {A} (vs : list A) (body : A -> ctor unit) : ctor unit :=
  match vs with
  | [] => ret tt
  | v :: vs' => (body v ;;; for_each vs' body)%ctor
  end.

(** [range(lo, hi)], empty when [hi <= lo]. *)
Definition range (lo hi : Z) : list Z := seqZ lo (hi - lo).

(** The slot that the Python index [i] names in a list of [len]
    elements: a negative index counts from the end. *)
Definition slot (len : nat) (i : Z) : option nat :=
  if 0 <=? i then
    if i <? Z.of_nat len then Some (Z.to_nat i) else None
  else
    if - Z.of_nat len <=? i then Some (Z.to_nat (Z.of_nat len + i))
    else None.

Section Construction.
Context {K : constants.t} {R : runtime.t}.

Definition random : ctor float :=
  fun s => (python.Return (runtime.random_stream (draws s)),
            mk_building (built s) (S (draws s))).

(** [self.population = []] *)
Definition reset_population : ctor unit :=
  fun s => (python.Return tt, mk_building [] (draws s)).

(** [self.population.append(c)] *)
Definition append (c : Cell.t) : ctor unit :=
  fun s => (python.Return tt, mk_building (built s ++ [c]) (draws s)).

(** [self.population[i].method()] for a method that mutates the cell. *)
Definition update_item (i : Z) (method : Cell.t -> Cell.t) : ctor unit :=
  fun s =>
    match slot (length (built s)) i with
    | Some n =>
        (python.Return tt, mk_building (alter method n (built s)) (draws s))
    | None => (python.Raise python.IndexError, s)
    end.

Definition random_location : ctor Point.t :=
  (r1 <- random ;;
   let start_x := (r1 * constants.BOUNDS_WIDTH - constants.MAX_X)%float in
   r2 <- random ;;
   let start_y := (r2 * constants.BOUNDS_HEIGHT - constants.MAX_Y)%float in
   ret (Point.mk start_x start_y))%ctor.

Definition random_direction (speed : float) : ctor Point.t :=
  (r <- random ;;
   let random_angle := (2 * runtime.pi * r)%float in
   let dir_x := (runtime.cos random_angle * speed)%float in
   let dir_y := (runtime.sin random_angle * speed)%float in
   ret (Point.mk dir_x dir_y))%ctor.

(** The three lines that end each loop body of the constructor. *)
Definition append_new_cell (speed : float) : ctor unit :=
  (start_loc <- random_location ;;
   start_dir <- random_direction speed ;;
   append (Cell.__init__ start_loc start_dir))%ctor.

Definition __init__ (cells : Z) (speed : float) (ninfected nimmune : Z)
  : ctor unit :=
  (reset_population ;;;
   if (ninfected >=? cells) || (ninfected <=? 0) then
     raise (python.ValueError
              "Some number of the Cell objects must begin infected.")
   else if (nimmune >=? cells) || (nimmune <? 0) then
     raise (python.ValueError "Improper number of immune or infected cells.")
   else
     for_each (range 0 (cells - ninfected - nimmune))
       (fun _ => append_new_cell speed) ;;;
     for_each (range 0 ninfected)
       (fun i => update_item i Cell.contract_disease ;;;
                 append_new_cell speed) ;;;
     for_each (range 0 nimmune)
       (fun j => update_item (j + ninfected) Cell.immunize ;;;
                 append_new_cell speed))%ctor.

(** The expression [Model(cells, speed, ninfected, nimmune)]: the
    object exists before [__init__] runs, with no population yet and
    the class attribute [time = 0]; it is returned when [__init__]
    returns. *)
Definition fresh : building := mk_building [] 0.

Definition new (cells : Z) (speed : float) (ninfected nimmune : Z)
  : python.result t :=
  match __init__ cells speed ninfected nimmune fresh with
  | (python.Return _, s) => python.Return (mk (built s) 0)
  | (python.Raise e, _) => python.Raise e
  end.

End Construction.

(** *** The engine

    The methods below mutate the model; each takes the model and
    returns it as the call leaves it.  [check_contacts] and [tick] also
    return the calls they made on the cells, in the order they made
    them, so that what the loops visit can be stated, and the exception
    that ended the call, if one was raised. *)

Inductive event : Type :=
| CellTick (i : nat)        (* [population[i].tick()] *)
| EnforceBounds (i : nat)   (* [self.enforce_bounds(population[i])] *)
| ContactWith (i j : nat).  (* [population[i].contact_with(population[j])] *)

(** How a call ends, or where a loop stands: the state, the calls made
    on the cells so far, and the exception raised, if any. *)
Record outcome (S : Type) : Type := mk_outcome {
  after : S;
  calls : list event;
  raised : option python.exn
}.
Arguments mk_outcome {S} after calls raised.
Arguments after {S} o.
Arguments calls {S} o.
Arguments raised {S} o.

Section Engine.
Context {K : constants.t} {R : runtime.t}.

Definition set_location_x (v : float) (c : Cell.t) : Cell.t :=
  Cell.mk (Point.mk v (Point.y (Cell.location c))) (Cell.direction c)
          (Cell.sickness c).

Definition set_location_y (v : float) (c : Cell.t) : Cell.t :=
  Cell.mk (Point.mk (Point.x (Cell.location c)) v) (Cell.direction c)
          (Cell.sickness c).

(** [cell.direction.x *= -1] *)
Definition flip_direction_x (c : Cell.t) : Cell.t :=
  Cell.mk (Cell.location c)
          (Point.mk (Point.x (Cell.direction c) * -1)%float
                    (Point.y (Cell.direction c)))
          (Cell.sickness c).

Definition flip_direction_y (c : Cell.t) : Cell.t :=
  Cell.mk (Cell.location c)
          (Point.mk (Point.x (Cell.direction c))
                    (Point.y (Cell.direction c) * -1)%float)
          (Cell.sickness c).

Definition enforce_bounds (cell : Cell.t) : Cell.t :=
  let cell1 :=
    if (constants.MAX_X <? Point.x (Cell.location cell))%float
    then flip_direction_x (set_location_x constants.MAX_X cell)
    else cell in
  let cell2 :=
    if (constants.MAX_Y <? Point.y (Cell.location cell1))%float
    then flip_direction_y (set_location_y constants.MAX_Y cell1)
    else cell1 in
  let cell3 :=
    if (Point.x (Cell.location cell2) <? constants.MIN_X)%float
    then flip_direction_x (set_location_x constants.MIN_X cell2)
    else cell2 in
  if (Point.y (Cell.location cell3) <? constants.MIN_Y)%float
  then flip_direction_y (set_location_y constants.MIN_Y cell3)
  else cell3.

(** The body of the inner loop of [check_contacts], at the indices
    [i] and [j], on the population and the calls made so far.  Once an
    exception is raised the turns that are left do not run.  The
    distance is computed before the identity test, so it can raise at
    [j = i] as well. *)
Definition check_pair (i j : nat) (st : outcome (list Cell.t))
  : outcome (list Cell.t) :=
  match raised st with
  | Some _ => st
  | None =>
      match after st !! i, after st !! j with
      | Some ci, Some cj =>
          match Point.distance (Cell.location ci) (Cell.location cj) with
          | python.Raise e => mk_outcome (after st) (calls st) (Some e)
          | python.Return dist =>
              if negb (j =? i)%nat then
                if (dist <? constants.CELL_RADIUS)%float
                then mk_outcome (Cell.contact_with i j (after st))
                                (calls st ++ [ContactWith i j]) None
                else st
              else st
          end
      | _, _ => st
      end
  end.

(** [for j in range(1, len(self.population))] *)
Definition check_row (i : nat) (st : outcome (list Cell.t))
  : outcome (list Cell.t) :=
  foldl (fun st j => check_pair i j st) st (seq 1 (length (after st) - 1)).

(** [while i < len(self.population): ...; i += 1], from [i = 0]: no
    call changes the length of the population, so the body runs for
    [i = 0, ..., len - 1]. *)
Definition check_contacts (self : t) : outcome t :=
  let st :=
    foldl (fun st i => check_row i st) (mk_outcome (population self) [] None)
          (seq 0 (length (population self))) in
  mk_outcome (mk (after st) (time self)) (calls st) (raised st).

(** The body of the loop of [tick] on the cell at index [i]: neither
    call raises. *)
Definition move (i : nat) (st : list Cell.t * list event)
  : list Cell.t * list event :=
  (alter (fun cell => enforce_bounds (Cell.tick cell)) i st.1,
   st.2 ++ [CellTick i; EnforceBounds i]).

Definition tick (self : t) : outcome t :=
  let self1 := mk (population self) (time self + 1) in
  let st :=
    foldl (fun st i => move i st) (population self1, [])
          (seq 0 (length (population self1))) in
  let scan := check_contacts (mk st.1 (time self1)) in
  mk_outcome (after scan) (st.2 ++ calls scan) (raised scan).

(** [while k < len(self.population)], with the early [return False].
    The loop makes at most [len] turns; [fuel] counts the turns left. *)
Fixpoint is_complete_loop (fuel k : nat) (self : t) : bool * t :=
  match fuel with
  | O => (true, self)
  | S fuel' =>
      match population self !! k with
      | Some cell =>
          if Cell.is_infected cell then (false, self)
          else is_complete_loop fuel' (k + 1) self
      | None => (true, self)
      end
  end.

Definition is_complete (self : t) : bool * t :=
  is_complete_loop (length (population self)) 0 self.

End Engine.

End Model.

(** ** A configuration

    One setting of the constants, used where a statement is evaluated on
    concrete cells: a square arena of side 400 centred on the origin,
    contact radius 15, and the disease states 0, 1 and -1 with recovery
    after 90. *)

Definition pj02 : constants.t :=
  constants.mk 400 400 200 (-200) 200 (-200) 15 0 1 (-1) 90.

(** A runtime on which the model can be evaluated: every call of
    [random()] returns one half, and constant functions stand for [cos]
    and [sin]; the disease states that the constructor assigns do not
    depend on any of them.  Its [pow], which the model calls with the
    exponent 2 only, gives the correctly rounded product of the number
    with itself, and reports a range error when that product is
    infinite. *)
Definition still : runtime.t :=
  runtime.mk (fun _ => 0x1p-1%float) (fun _ => 1%float) (fun _ => 0%float)
             0x1.921fb54442d18p+1%float
             (fun a _ =>
                ((a * a)%float,
                 if is_infinity (a * a) then Some runtime.ERANGE else None)).

(** A cell on the upper x-bound of [pj02] that moves right by [2^-60] at
    each tick. *)
Definition grazing : Cell.t :=
  Cell.mk (Point.mk 200 0) (Point.mk 0x1p-60 0) 0.

(** A cell at rest on the x-axis, and a row of three of them ten apart:
    the first is infected, the other two are vulnerable. *)
Definition resting (x : float) (sickness : Z) : Cell.t :=
  Cell.mk (Point.mk x 0) (Point.mk 0 0) sickness.

Definition chain : Model.t :=
  Model.mk [resting 0 1; resting 10 0; resting 20 0] 0.

(** Three cells at rest on the x-axis, at 0, at [2^665] (about
    [1.5e200]) and at 1: the first is infected and the third, one unit
    away from it, is vulnerable.  The square of [2^665] is out of the
    range of the floats. *)
Definition stretched : Model.t :=
  Model.mk [resting 0 1; resting 0x1p+665 0; resting 1 0] 0.

(** ** Vocabulary of the statements *)

Section Vocabulary.
Context {K : constants.t} {R : runtime.t}.

(** The three disease predicates exclude one another. *)
Definition exclusive_states : Prop :=
  constants.VULNERABLE < constants.INFECTED
  /\ constants.IMMUNE < constants.INFECTED
  /\ constants.IMMUNE <> constants.VULNERABLE.

(** [n] calls of [Cell.tick] in a row. *)
Definition ticks (n : nat) (c : Cell.t) : Cell.t := Nat.iter n Cell.tick c.

(** The recovery rule as the specification words it: the cell is immune
    as soon as, and not before, the number of ticks since the infection
    exceeds the recovery period. *)
Definition recovers_when_ticks_exceed_period : Prop :=
  forall c n,
    Cell.is_immune (ticks n (Cell.contract_disease c)) = true
    <-> constants.RECOVERY_PERIOD < Z.of_nat n.

(** Calls a client can make on the cells of a store, and their effect. *)
Inductive call : Type :=
| CallTick (r : nat)
| CallContractDisease (r : nat)
| CallContactWith (self other : nat).

Definition exec (c : call) (store : list Cell.t) : list Cell.t :=
  match c with
  | CallTick r => alter Cell.tick r store
  | CallContractDisease r => alter Cell.contract_disease r store
  | CallContactWith self other => Cell.contact_with self other store
  end.

Definition run (calls : list call) (store : list Cell.t) : list Cell.t :=
  foldl (fun s c => exec c s) store calls.

(** The contact rule as the specification words it: both tests read the
    states the two cells had before the contact. *)
Definition contact_with_pre (self other : nat) (store : list Cell.t)
  : list Cell.t :=
  let to_other :=
    Cell.at_ref Cell.is_infected store self
    && Cell.at_ref Cell.is_vulnerable store other in
  let to_self :=
    Cell.at_ref Cell.is_vulnerable store self
    && Cell.at_ref Cell.is_infected store other in
  let store1 :=
    if to_other then alter Cell.contract_disease other store else store in
  if to_self then alter Cell.contract_disease self store1 else store1.

(** The test of [check_contacts] on two locations, in the order it
    passes them to [Point.distance]: the distance is returned, and it is
    below the contact radius. *)
Definition within (p q : Point.t) : bool :=
  match Point.distance p q with
  | python.Return dist => (dist <? constants.CELL_RADIUS)%float
  | python.Raise _ => false
  end.

Definition near (c1 c2 : Cell.t) : bool :=
  within (Cell.location c1) (Cell.location c2).

(** The effect on the population of the calls listed in a log. *)
Definition replay (log : list Model.event) (pop : list Cell.t)
  : list Cell.t :=
  foldl (fun p e =>
           match e with
           | Model.ContactWith i j => Cell.contact_with i j p
           | Model.CellTick i => alter Cell.tick i p
           | Model.EnforceBounds i => alter Model.enforce_bounds i p
           end) pop log.

(** One axis of [enforce_bounds]: a coordinate and the velocity along
    it, against the upper bound and then the lower bound. *)
Definition bounce (hi lo : float) (pv : float * float) : float * float :=
  let pv1 := if (hi <? pv.1)%float then (hi, (pv.2 * -1)%float) else pv in
  if (pv1.1 <? lo)%float then (lo, (pv1.2 * -1)%float) else pv1.

(** The calls that [check_contacts] makes, read off the locations of
    the cells: at the indices [i] and [j], along the row [i], and in
    the whole scan. *)
Definition pair_calls (locs : list Point.t) (i j : nat)
  : list Model.event :=
  match locs !! i, locs !! j with
  | Some p, Some q =>
      if negb (j =? i)%nat && within p q
      then [Model.ContactWith i j]
      else []
  | _, _ => []
  end.

Definition row_calls (locs : list Point.t) (i : nat) : list Model.event :=
  seq 1 (length locs - 1) ≫= pair_calls locs i.

Definition scan_calls (locs : list Point.t) : list Model.event :=
  seq 0 (length locs) ≫= row_calls locs.

(** The exceptions that the distances of a scan would raise, in the
    order in which [check_contacts] computes the distances. *)
Definition pair_errors (locs : list Point.t) (i j : nat)
  : list python.exn :=
  match locs !! i, locs !! j with
  | Some p, Some q =>
      match Point.distance p q with
      | python.Raise e => [e]
      | python.Return _ => []
      end
  | _, _ => []
  end.

Definition row_errors (locs : list Point.t) (i : nat) : list python.exn :=
  seq 1 (length locs - 1) ≫= pair_errors locs i.

Definition scan_errors (locs : list Point.t) : list python.exn :=
  seq 0 (length locs) ≫= row_errors locs.

(** A part of the scan that takes the loop from [st] to [st'] follows
    the calls [cs] and the errors [es] read off the locations: the cells
    are where they were; the calls made are those of [cs], all of them
    if no exception is raised and the first ones otherwise; and the
    exception raised, if the loop was still running, is the first of
    [es]. *)
Definition follows (locs : list Point.t) (cs : list Model.event)
    (es : list python.exn) (st st' : Model.outcome (list Cell.t)) : Prop :=
  Cell.location <$> Model.after st' = locs
  /\ (exists rest,
        Model.calls st ++ cs = Model.calls st' ++ rest
        /\ (Model.raised st' = None -> rest = []))
  /\ Model.raised st'
     = match Model.raised st with
       | Some e => Some e
       | None => head es
       end.

(** The calls that the loop of [Model.tick] makes on [n] cells. *)
Definition move_calls (n : nat) : list Model.event :=
  seq 0 n ≫= (fun i => [Model.CellTick i; Model.EnforceBounds i]).

(** The number of cells of a population that satisfy a predicate. *)
Definition count (p : Cell.t -> bool) (pop : list Cell.t) : nat :=
  length (List.filter p pop).

End Vocabulary.


(** ** Vocabulary of the further statements *)

Section MoreVocabulary.
Context {K : constants.t} {R : runtime.t}.

(** None of the four tests of [enforce_bounds] holds of the cell. *)
Definition inside (c : Cell.t) : bool :=
  negb (constants.MAX_X <? Point.x (Cell.location c))%float
  && negb (constants.MAX_Y <? Point.y (Cell.location c))%float
  && negb (Point.x (Cell.location c) <? constants.MIN_X)%float
  && negb (Point.y (Cell.location c) <? constants.MIN_Y)%float.

(** What a contact can do to a cell: nothing, or infect it if it was
    vulnerable. *)
Definition untouched_or_infected (c c' : Cell.t) : Prop :=
  c' = c \/ (Cell.is_vulnerable c = true /\ c' = Cell.contract_disease c).

(** [n] calls of [Model.tick] in a row, each on the model as the call
    before it left it, whether that call returned or raised. *)
Definition run_ticks (n : nat) (m : Model.t) : Model.t :=
  Nat.iter n (fun m => Model.after (Model.tick m)) m.

(** The disease state that the constructor gives to the cell at the
    index [j]. *)
Definition initial_sickness (ninfected nimmune : Z) (j : nat) : Z :=
  if Z.of_nat j <? ninfected then constants.INFECTED
  else if Z.of_nat j <? ninfected + nimmune then constants.IMMUNE
  else constants.VULNERABLE.

End MoreVocabulary.

Section Drawn.
Context {K : constants.t} {R : runtime.t}.

(** The location and the direction computed from the random numbers of
    the calls [3j], [3j + 1] and [3j + 2]. *)
Definition drawn_location (j : nat) : Point.t :=
  Point.mk
    (runtime.random_stream (3 * j)%nat * constants.BOUNDS_WIDTH
     - constants.MAX_X)%float
    (runtime.random_stream (3 * j + 1)%nat * constants.BOUNDS_HEIGHT
     - constants.MAX_Y)%float.

Definition drawn_direction (speed : float) (j : nat) : Point.t :=
  let random_angle :=
    (2 * runtime.pi * runtime.random_stream (3 * j + 2)%nat)%float in
  Point.mk (runtime.cos random_angle * speed)%float
           (runtime.sin random_angle * speed)%float.

(** The cell at each index was built from the three random numbers of
    its rank, and three numbers were drawn per cell. *)
Definition drawn_in_order (speed : float) (s : Model.building) : Prop :=
  Model.draws s = (3 * length (Model.built s))%nat
  /\ forall j c, Model.built s !! j = Some c ->
                 Cell.location c = drawn_location j
                 /\ Cell.direction c = drawn_direction speed j.

End Drawn.

(** ** Cells *)

Section CellFacts.
Context {K : constants.t}.

Lemma at_ref_alter_ne (p : Cell.t -> bool) f (store : list Cell.t) i j :
  i <> j -> Cell.at_ref p (alter f j store) i = Cell.at_ref p store i.
Proof.
  intros Hij. unfold Cell.at_ref.
  rewrite list_lookup_alter_ne by congruence. reflexivity.
Qed.

Lemma at_ref_alter (p : Cell.t -> bool) f (store : list Cell.t) i :
  Cell.at_ref p (alter f i store) i = Cell.at_ref (fun c => p (f c)) store i.
Proof.
  unfold Cell.at_ref. rewrite list_lookup_alter_eq.
  destruct (store !! i); reflexivity.
Qed.

Lemma at_ref_lookup (p : Cell.t -> bool) (store : list Cell.t) i c :
  store !! i = Some c -> Cell.at_ref p store i = p c.
Proof. unfold Cell.at_ref. intros ->. reflexivity. Qed.

Lemma contract_disease_infected c :
  Cell.is_infected (Cell.contract_disease c) = true.
Proof. unfold Cell.is_infected. cbn. lia. Qed.

Lemma alter_lookup_insert (f : Cell.t -> Cell.t) (store : list Cell.t) i c :
  store !! i = Some c -> alter f i store = <[i := f c]> store.
Proof.
  intros Hi. apply list_eq. intros k.
  destruct (decide (k = i)) as [-> | Hk].
  - rewrite list_lookup_alter_eq, Hi.
    rewrite list_lookup_insert_eq by (eapply lookup_lt_Some; eauto).
    reflexivity.
  - rewrite list_lookup_alter_ne, list_lookup_insert_ne by congruence.
    reflexivity.
Qed.

End CellFacts.

(** ** Contact between two cells *)

Section Contact.
Context {K : constants.t}.

Lemma same_sickness_when_vulnerable c1 c2 :
  Cell.is_vulnerable c1 = true -> Cell.is_vulnerable c2 = true ->
  Cell.is_infected c1 = Cell.is_infected c2.
Proof.
  unfold Cell.is_vulnerable, Cell.is_infected. intros H1 H2.
  apply Z.eqb_eq in H1, H2. rewrite H1, H2. reflexivity.
Qed.

Lemma contact_with_unfold store i j ci cj :
  i <> j -> store !! i = Some ci -> store !! j = Some cj ->
  Cell.contact_with i j store =
    if Cell.is_infected ci && Cell.is_vulnerable cj
    then (if Cell.is_vulnerable ci
          then alter Cell.contract_disease i
                 (alter Cell.contract_disease j store)
          else alter Cell.contract_disease j store)
    else (if Cell.is_vulnerable ci && Cell.is_infected cj
          then alter Cell.contract_disease i store
          else store).
Proof.
  intros Hij Hi Hj. unfold Cell.contact_with.
  rewrite (at_ref_lookup _ store i ci Hi), (at_ref_lookup _ store j cj Hj).
  destruct (Cell.is_infected ci && Cell.is_vulnerable cj) eqn:Hfirst.
  - rewrite at_ref_alter_ne by exact Hij.
    rewrite at_ref_alter.
    rewrite (at_ref_lookup _ store i ci Hi), (at_ref_lookup _ store j cj Hj).
    rewrite contract_disease_infected, andb_true_r. reflexivity.
  - rewrite (at_ref_lookup _ store i ci Hi), (at_ref_lookup _ store j cj Hj).
    reflexivity.
Qed.

Lemma contact_with_pre_unfold store i j ci cj :
  store !! i = Some ci -> store !! j = Some cj ->
  contact_with_pre i j store =
    if Cell.is_infected ci && Cell.is_vulnerable cj
    then (if Cell.is_vulnerable ci && Cell.is_infected cj
          then alter Cell.contract_disease i
                 (alter Cell.contract_disease j store)
          else alter Cell.contract_disease j store)
    else (if Cell.is_vulnerable ci && Cell.is_infected cj
          then alter Cell.contract_disease i store
          else store).
Proof.
  intros Hi Hj. unfold contact_with_pre.
  rewrite !(at_ref_lookup _ store i ci Hi), !(at_ref_lookup _ store j cj Hj).
  destruct (Cell.is_infected ci && Cell.is_vulnerable cj); reflexivity.
Qed.

Lemma contact_with_as_pre store i j ci cj :
  i <> j -> store !! i = Some ci -> store !! j = Some cj ->
  Cell.contact_with i j store = contact_with_pre i j store.
Proof.
  intros Hij Hi Hj.
  rewrite (contact_with_unfold store i j ci cj Hij Hi Hj).
  rewrite (contact_with_pre_unfold store i j ci cj Hi Hj).
  destruct (Cell.is_infected ci) eqn:Ii, (Cell.is_vulnerable cj) eqn:Vj;
    cbn; try reflexivity.
  destruct (Cell.is_vulnerable ci) eqn:Vi; cbn; [| reflexivity].
  rewrite <- (same_sickness_when_vulnerable ci cj Vi Vj), Ii. reflexivity.
Qed.

(** C6.  One call [cell1.contact_with(cell2)] on two cells: it has the
    effect of the rule that reads both cells before the contact; when
    exactly one cell is infected and the other is vulnerable, the
    vulnerable one becomes infected and nothing else in the store
    changes, whichever of the two is [self]; when neither cross test
    holds before the call, the store is unchanged. *)
Theorem contact_with_transmits_once store i j ci cj :
  i <> j -> store !! i = Some ci -> store !! j = Some cj ->
  Cell.contact_with i j store = contact_with_pre i j store
  /\ (Cell.is_infected ci = true -> Cell.is_infected cj = false ->
      Cell.is_vulnerable cj = true ->
      Cell.contact_with i j store = <[j := Cell.contract_disease cj]> store
      /\ Cell.contact_with j i store = <[j := Cell.contract_disease cj]> store
      /\ Cell.is_infected (Cell.contract_disease cj) = true)
  /\ (Cell.is_infected ci && Cell.is_vulnerable cj = false ->
      Cell.is_vulnerable ci && Cell.is_infected cj = false ->
      Cell.contact_with i j store = store).
Proof.
  intros Hij Hi Hj. split; [| split].
  - exact (contact_with_as_pre store i j ci cj Hij Hi Hj).
  - intros Ii Ij Vj.
    assert (Vi : Cell.is_vulnerable ci = false).
    { destruct (Cell.is_vulnerable ci) eqn:Vi; [| reflexivity].
      rewrite (same_sickness_when_vulnerable ci cj Vi Vj) in Ii.
      congruence. }
    rewrite (contact_with_unfold store i j ci cj Hij Hi Hj).
    rewrite (contact_with_unfold store j i cj ci (not_eq_sym Hij) Hj Hi).
    rewrite Ii, Ij, Vj, Vi. cbn.
    rewrite (alter_lookup_insert _ store j cj Hj).
    auto using contract_disease_infected.
  - intros H1 H2.
    rewrite (contact_with_unfold store i j ci cj Hij Hi Hj), H1, H2.
    reflexivity.
Qed.

End Contact.

(** ** The disease clock of one cell *)

Section Recovery.
Context {K : constants.t} {R : runtime.t}.

Lemma tick_sickness c :
  Cell.sickness (Cell.tick c) =
    let s := if Cell.sickness c >=? constants.INFECTED
             then Cell.sickness c + 1 else Cell.sickness c in
    if s >? constants.RECOVERY_PERIOD then constants.IMMUNE else s.
Proof.
  unfold Cell.tick, Cell.is_infected. cbn.
  destruct (Cell.sickness c >=? constants.INFECTED); cbn;
    match goal with |- context [?a >? ?b] => destruct (a >? b) end;
    reflexivity.
Qed.

Lemma tick_keeps_immune c :
  constants.IMMUNE < constants.INFECTED ->
  Cell.is_immune c = true -> Cell.is_immune (Cell.tick c) = true.
Proof.
  unfold Cell.is_immune. intros Hlt Hc. apply Z.eqb_eq in Hc.
  rewrite tick_sickness, Hc. cbn.
  destruct (constants.IMMUNE >=? constants.INFECTED) eqn:E; [lia |].
  destruct (constants.IMMUNE >? constants.RECOVERY_PERIOD); lia.
Qed.

Lemma ticks_S n c : ticks (S n) c = Cell.tick (ticks n c).
Proof. reflexivity. Qed.

Lemma ticks_while_infected n c :
  constants.INFECTED + Z.of_nat n <= constants.RECOVERY_PERIOD ->
  Cell.sickness (ticks n (Cell.contract_disease c))
  = constants.INFECTED + Z.of_nat n.
Proof.
  induction n as [| n IH]; intros Hn.
  - cbn. lia.
  - rewrite ticks_S, tick_sickness, IH by lia. cbn zeta.
    destruct (constants.INFECTED + Z.of_nat n >=? constants.INFECTED) eqn:E;
      [| lia].
    destruct (constants.INFECTED + Z.of_nat n + 1 >? constants.RECOVERY_PERIOD)
      eqn:E'; lia.
Qed.

Lemma ticks_recovered n c :
  constants.IMMUNE < constants.INFECTED ->
  (1 <= n)%nat ->
  constants.RECOVERY_PERIOD < constants.INFECTED + Z.of_nat n ->
  Cell.is_immune (ticks n (Cell.contract_disease c)) = true.
Proof.
  intros Hlt. induction n as [| n IH]; intros Hn Hrp; [lia |].
  rewrite ticks_S.
  destruct (Z_lt_le_dec constants.RECOVERY_PERIOD
                        (constants.INFECTED + Z.of_nat n)) as [Hgt | Hle].
  - destruct n as [| n'].
    + unfold Cell.is_immune. rewrite tick_sickness. cbn.
      destruct (constants.INFECTED >=? constants.INFECTED) eqn:E; [| lia].
      destruct (constants.INFECTED + 1 >? constants.RECOVERY_PERIOD) eqn:E';
        lia.
    + apply tick_keeps_immune; [exact Hlt |]. apply IH; lia.
  - unfold Cell.is_immune.
    rewrite tick_sickness, ticks_while_infected by exact Hle. cbn zeta.
    destruct (constants.INFECTED + Z.of_nat n >=? constants.INFECTED) eqn:E;
      [| lia].
    destruct (constants.INFECTED + Z.of_nat n + 1 >? constants.RECOVERY_PERIOD)
      eqn:E'; lia.
Qed.

Lemma immune_after_ticks c n :
  constants.IMMUNE < constants.INFECTED ->
  Cell.is_immune (ticks n (Cell.contract_disease c)) = true
  <-> (1 <= n)%nat
      /\ constants.RECOVERY_PERIOD < constants.INFECTED + Z.of_nat n.
Proof.
  intros Hlt. split.
  - intros Him.
    destruct (Nat.eq_dec n 0%nat) as [-> | Hn].
    + unfold Cell.is_immune in Him. cbn in Him. apply Z.eqb_eq in Him. lia.
    + destruct (Z_lt_le_dec constants.RECOVERY_PERIOD
                            (constants.INFECTED + Z.of_nat n)) as [H | H];
        [split; [lia | exact H] |].
      unfold Cell.is_immune in Him.
      rewrite ticks_while_infected in Him by exact H.
      apply Z.eqb_eq in Him. lia.
  - intros [H1 H2]. now apply ticks_recovered.
Qed.

(** The rule as worded agrees with the code exactly when the counter
    starts at zero, that is when [INFECTED = 0]. *)
Lemma worded_recovery_iff_counter_from_zero :
  constants.IMMUNE < constants.INFECTED ->
  1 <= constants.RECOVERY_PERIOD ->
  recovers_when_ticks_exceed_period <-> constants.INFECTED = 0.
Proof.
  intros Hlt Hrp. unfold recovers_when_ticks_exceed_period.
  pose (c0 := Cell.mk (Point.mk 0 0) (Point.mk 0 0) constants.VULNERABLE).
  split.
  - intros Hclaim.
    destruct (Z.lt_trichotomy constants.INFECTED 0) as [Hneg | [H0 | Hpos]];
      [| exact H0 |]; exfalso.
    + pose (n := Z.to_nat (constants.RECOVERY_PERIOD + 1)).
      assert (Hn : Z.of_nat n = constants.RECOVERY_PERIOD + 1)
        by (unfold n; lia).
      destruct (Hclaim c0 n) as [_ Himm].
      apply (immune_after_ticks c0 n Hlt) in Himm; lia.
    + pose (n := Z.to_nat
                   (Z.max 1 (constants.RECOVERY_PERIOD
                             - constants.INFECTED + 1))).
      assert (Hn : Z.of_nat n
                   = Z.max 1 (constants.RECOVERY_PERIOD
                              - constants.INFECTED + 1))
        by (unfold n; lia).
      assert (Himm : Cell.is_immune (ticks n (Cell.contract_disease c0))
                     = true)
        by (apply immune_after_ticks; [exact Hlt | lia]).
      apply Hclaim in Himm. lia.
  - intros H0 c n. rewrite (immune_after_ticks c n Hlt), H0. lia.
Qed.


End Recovery.

(** ** Immunity *)

Section Immunity.
Context {K : constants.t}.

Lemma immune_not_vulnerable store r :
  constants.IMMUNE <> constants.VULNERABLE ->
  Cell.at_ref Cell.is_immune store r = true ->
  Cell.at_ref Cell.is_vulnerable store r = false.
Proof.
  unfold Cell.at_ref, Cell.is_immune, Cell.is_vulnerable. intros Hne.
  destruct (store !! r) as [c |]; [| reflexivity].
  intros H. apply Z.eqb_eq in H. rewrite H. now apply Z.eqb_neq.
Qed.

Lemma infecting_a_vulnerable_keeps_immune store x r :
  constants.IMMUNE <> constants.VULNERABLE ->
  Cell.at_ref Cell.is_immune store r = true ->
  Cell.at_ref Cell.is_vulnerable store x = true ->
  Cell.at_ref Cell.is_immune (alter Cell.contract_disease x store) r = true.
Proof.
  intros Hne Hr Hx. destruct (decide (r = x)) as [-> | Hrx].
  - rewrite (immune_not_vulnerable store x Hne Hr) in Hx. discriminate.
  - rewrite at_ref_alter_ne by exact Hrx. exact Hr.
Qed.

Lemma contact_with_keeps_immune store self other r :
  constants.IMMUNE <> constants.VULNERABLE ->
  Cell.at_ref Cell.is_immune store r = true ->
  Cell.at_ref Cell.is_immune (Cell.contact_with self other store) r = true.
Proof.
  intros Hne Hr. unfold Cell.contact_with.
  match goal with
  | |- context [alter _ self ?s] => set (store1 := s)
  end.
  assert (H1 : Cell.at_ref Cell.is_immune store1 r = true).
  { unfold store1.
    destruct (Cell.at_ref Cell.is_infected store self); cbn; [| exact Hr].
    destruct (Cell.at_ref Cell.is_vulnerable store other) eqn:Hv;
      [| exact Hr].
    now apply infecting_a_vulnerable_keeps_immune. }
  destruct (Cell.at_ref Cell.is_vulnerable store1 self) eqn:Hv; cbn;
    [| exact H1].
  destruct (Cell.at_ref Cell.is_infected store1 other); [| exact H1].
  now apply infecting_a_vulnerable_keeps_immune.
Qed.

Lemma exec_keeps_immune store r c :
  constants.IMMUNE < constants.INFECTED ->
  constants.IMMUNE <> constants.VULNERABLE ->
  c <> CallContractDisease r ->
  Cell.at_ref Cell.is_immune store r = true ->
  Cell.at_ref Cell.is_immune (exec c store) r = true.
Proof.
  intros Hlt Hne Hc Hr. destruct c as [r' | r' | self other]; cbn.
  - destruct (decide (r = r')) as [<- | Hrr].
    + rewrite at_ref_alter. unfold Cell.at_ref in *.
      destruct (store !! r) as [c |]; [| discriminate].
      now apply tick_keeps_immune.
    + rewrite at_ref_alter_ne by exact Hrr. exact Hr.
  - rewrite at_ref_alter_ne by congruence. exact Hr.
  - now apply contact_with_keeps_immune.
Qed.

(** C3, as the code has it.  Once a cell is immune, no sequence of
    calls of [Cell.tick] and [contact_with], on that cell or on any
    other and in any order, and no [contract_disease] on another cell,
    takes it out of the immune state.  The one call left out is
    [contract_disease] on the immune cell itself: it is unconditional,
    and [contact_with] makes it on vulnerable cells only. *)
Theorem immune_is_terminal (store : list Cell.t) (r : nat)
  (calls : list call) :
  constants.IMMUNE < constants.INFECTED ->
  constants.IMMUNE <> constants.VULNERABLE ->
  CallContractDisease r ∉ calls ->
  Cell.at_ref Cell.is_immune store r = true ->
  Cell.at_ref Cell.is_immune (run calls store) r = true.
Proof.
  intros Hlt Hne. revert store.
  induction calls as [| c calls IH]; intros store Hnot Hr; [exact Hr |].
  cbn. apply IH.
  - intros Hin. apply Hnot. now right.
  - apply exec_keeps_immune; try assumption.
    intros ->. apply Hnot. now left.
Qed.

End Immunity.

(** ** The completion test *)

Section Completion.
Context {K : constants.t}.

Lemma is_complete_loop_pure fuel k (m : Model.t) :
  (Model.is_complete_loop fuel k m).2 = m.
Proof.
  revert k. induction fuel as [| fuel IH]; intros k; cbn; [reflexivity |].
  destruct (Model.population m !! k) as [c |]; [| reflexivity].
  destruct (Cell.is_infected c); [reflexivity | apply IH].
Qed.

Lemma is_complete_loop_true fuel k (m : Model.t) :
  (length (Model.population m) <= k + fuel)%nat ->
  (Model.is_complete_loop fuel k m).1 = true <->
  forall i c, (k <= i)%nat -> Model.population m !! i = Some c ->
              Cell.is_infected c = false.
Proof.
  revert k. induction fuel as [| fuel IH]; intros k Hlen; cbn.
  - split; [| reflexivity]. intros _ i c Hki Hi.
    apply lookup_lt_Some in Hi. lia.
  - destruct (Model.population m !! k) as [ck |] eqn:Hk.
    + destruct (Cell.is_infected ck) eqn:Hinf.
      * split; [discriminate |]. intros H.
        rewrite (H k ck (Nat.le_refl k) Hk) in Hinf. discriminate.
      * rewrite IH by lia. split.
        -- intros H i c Hki Hi.
           destruct (decide (i = k)) as [-> | Hne].
           ++ congruence.
           ++ apply (H i c); [lia | exact Hi].
        -- intros H i c Hki Hi. apply (H i c); [lia | exact Hi].
    + split; [| reflexivity]. intros _ i c Hki Hi.
      apply lookup_ge_None in Hk. apply lookup_lt_Some in Hi. lia.
Qed.

(** C9.  [is_complete] answers true exactly when no cell of the
    population is infected, and it leaves the model as it found it:
    the clock and every cell, with its location, direction and
    sickness.  This holds of every model, ticked or not. *)
Theorem is_complete_reads_only (m : Model.t) :
  (Model.is_complete m).2 = m
  /\ ((Model.is_complete m).1 = true <->
      forall c, c ∈ Model.population m -> Cell.is_infected c = false).
Proof.
  split; [apply is_complete_loop_pure |].
  unfold Model.is_complete. rewrite is_complete_loop_true by lia. split.
  - intros H c Hc. apply list_elem_of_lookup in Hc as [i Hi].
    apply (H i c); [lia | exact Hi].
  - intros H i c _ Hi. apply H. eapply list_elem_of_lookup_2; eauto.
Qed.

End Completion.

(** ** Further facts on binary64 numbers *)

Section MoreBinary64.

Lemma ltb_irreflexive (x : float) : (x <? x)%float = false.
Proof.
  rewrite ltb_spec. unfold SFltb.
  destruct (Prim2SF x) as [s | s | | s m e]; cbn; try destruct s;
    rewrite ?Z.compare_refl, ?Pos.compare_cont_refl; reflexivity.
Qed.

Lemma finite_spec (x : float) :
  PrimFloat.is_finite x = true ->
  (exists s, Prim2SF x = S754_zero s)
  \/ (exists s m e, Prim2SF x = S754_finite s m e).
Proof.
  unfold PrimFloat.is_finite, is_nan, is_infinity.
  rewrite !FloatAxioms.eqb_spec, abs_spec.
  change (Prim2SF infinity) with (S754_infinity false).
  destruct (Prim2SF x) as [s | s | | s m e]; cbn; try discriminate; eauto.
  destruct s; discriminate.
Qed.

Lemma sub_self (x : float) :
  PrimFloat.is_finite x = true -> (x - x)%float = 0%float.
Proof.
  intros Hx. apply Prim2SF_inj. rewrite sub_spec.
  change (Prim2SF 0%float) with (S754_zero false).
  destruct (finite_spec x Hx) as [[s ->] | (s & m & e & ->)].
  - destruct s; reflexivity.
  - unfold SF64sub, SFsub. rewrite Z.sub_diag. reflexivity.
Qed.

Lemma binary_round_negb s m e :
  binary_round prec emax (negb s) m e = SFopp (binary_round prec emax s m e).
Proof.
  unfold binary_round, binary_round_aux.
  destruct (shl_align m e _) as [mz ez].
  destruct (shr_fexp prec emax (Z.pos mz) ez loc_Exact) as [mrs e'].
  destruct (shr_fexp prec emax _ e' loc_Exact) as [mrs' e''].
  destruct (shr_m mrs') as [| p | p]; try reflexivity.
  destruct (e'' <=? emax - prec); reflexivity.
Qed.

Lemma binary_normalize_opp n e :
  binary_normalize prec emax (- n) e false
  = binary_normalize prec emax n e false
  \/ binary_normalize prec emax (- n) e false
     = SFopp (binary_normalize prec emax n e false).
Proof.
  destruct n as [| p | p]; [left; reflexivity | right | right];
    unfold binary_normalize; cbn [Z.opp].
  - exact (binary_round_negb false p e).
  - exact (binary_round_negb true p e).
Qed.

Lemma SF64sub_swap X Y :
  SF64sub Y X = SF64sub X Y \/ SF64sub Y X = SFopp (SF64sub X Y).
Proof.
  destruct X as [sx | sx | | sx mx ex], Y as [sy | sy | | sy my ey];
    try (destruct sx, sy; cbn; auto; fail);
    try (destruct sx; cbn; auto; fail);
    try (destruct sy; cbn; auto; fail);
    try (cbn; auto; fail).
  unfold SF64sub, SFsub. rewrite (Z.min_comm ey ex).
  match goal with
  | |- context [binary_normalize _ _ (?b - ?a) ?z false] =>
      replace (b - a) with (- (a - b)) by lia;
      apply binary_normalize_opp
  end.
Qed.

(** The two differences of two floats are equal, or opposite. *)
Lemma sub_swap (x y : float) :
  (y - x)%float = (x - y)%float \/ (y - x)%float = (- (x - y))%float.
Proof.
  destruct (SF64sub_swap (Prim2SF x) (Prim2SF y)) as [H | H];
    [left | right]; apply Prim2SF_inj;
    rewrite ?opp_spec, !sub_spec; exact H.
Qed.

Lemma SFeqb_refl_finite s m e :
  SFeqb (S754_finite s m e) (S754_finite s m e) = true.
Proof.
  unfold SFeqb, SFcompare.
  destruct s; rewrite Z.compare_refl, Pos.compare_cont_refl; reflexivity.
Qed.

Lemma abs_opp (v : float) : abs (- v) = abs v.
Proof.
  apply Prim2SF_inj. rewrite !abs_spec, opp_spec.
  destruct (Prim2SF v); reflexivity.
Qed.

Lemma opp_opp (v : float) : (- - v)%float = v.
Proof.
  apply Prim2SF_inj. rewrite !opp_spec.
  destruct (Prim2SF v) as [s | s | | s m e]; cbn; rewrite ?negb_involutive;
    reflexivity.
Qed.

Lemma is_nan_spec (v : float) :
  is_nan v = true <-> Prim2SF v = S754_nan.
Proof.
  unfold is_nan. rewrite FloatAxioms.eqb_spec.
  destruct (Prim2SF v) as [s | s | | s m e].
  - split; discriminate.
  - destruct s; split; discriminate.
  - split; reflexivity.
  - rewrite SFeqb_refl_finite. split; discriminate.
Qed.

Lemma opp_nan (v : float) : is_nan v = true -> (- v)%float = v.
Proof.
  intros H. apply is_nan_spec in H. apply Prim2SF_inj.
  rewrite opp_spec, H. reflexivity.
Qed.

Lemma is_nan_opp (v : float) : is_nan (- v) = is_nan v.
Proof.
  destruct (is_nan v) eqn:H.
  - rewrite (opp_nan v H). exact H.
  - destruct (is_nan (- v)) eqn:H'; [| reflexivity].
    rewrite <- (opp_opp v), (opp_nan _ H') in H. congruence.
Qed.

Lemma is_infinity_opp (v : float) : is_infinity (- v) = is_infinity v.
Proof. unfold is_infinity. rewrite abs_opp. reflexivity. Qed.

Lemma eqb_zero_opp (v : float) : (- v =? 0)%float = (v =? 0)%float.
Proof.
  rewrite !FloatAxioms.eqb_spec, opp_spec.
  destruct (Prim2SF v) as [s | s | | s m e]; try destruct s; reflexivity.
Qed.

(** The number that [float ** int] hands to [pow] is the same for a
    number and for its opposite. *)
Lemma magnitude_opp (v : float) :
  (v =? 0)%float = false ->
  (if (- v <? 0)%float then (- - v)%float else (- v)%float)
  = (if (v <? 0)%float then (- v)%float else v).
Proof.
  rewrite FloatAxioms.eqb_spec, !ltb_spec, opp_spec, opp_opp.
  change (Prim2SF 0%float) with (S754_zero false).
  destruct (Prim2SF v) as [s | s | | s m e] eqn:Hv; cbn.
  - discriminate.
  - intros _. destruct s; reflexivity.
  - intros _. apply opp_nan, is_nan_spec, Hv.
  - intros _. destruct s; reflexivity.
Qed.

End MoreBinary64.

(** ** Points *)

Section Points.
Context {K : constants.t} {R : runtime.t}.

Lemma square_opp (v : float) : Point.square (- v) = Point.square v.
Proof.
  unfold Point.square.
  rewrite is_nan_opp, is_infinity_opp, abs_opp, eqb_zero_opp.
  destruct (is_nan v) eqn:Hnan; [rewrite (opp_nan v Hnan); reflexivity |].
  destruct (is_infinity v); [reflexivity |].
  destruct (v =? 0)%float eqn:H0; [reflexivity |].
  cbv zeta. rewrite (magnitude_opp v H0). reflexivity.
Qed.

Lemma square_sub_swap (a b : float) :
  Point.square (b - a) = Point.square (a - b).
Proof.
  destruct (sub_swap a b) as [-> | ->]; [reflexivity | apply square_opp].
Qed.

Lemma distance_swap (p q : Point.t) :
  Point.distance p q = Point.distance q p.
Proof.
  unfold Point.distance.
  rewrite (square_sub_swap (Point.x p) (Point.x q)).
  rewrite (square_sub_swap (Point.y p) (Point.y q)).
  reflexivity.
Qed.

Lemma near_swap (c1 c2 : Cell.t) : near c1 c2 = near c2 c1.
Proof. unfold near, within. rewrite distance_swap. reflexivity. Qed.

(** X2.  [Point.distance] ends in the same way whichever of the two
    points is [self]: it returns the same number, or it raises the same
    exception.  The two differences along an axis are opposite or equal,
    and [**] hands the absolute value of the difference to the C
    library, so this holds whatever [pow] computes.  The test of the
    scan has the same answer in both orders. *)
Theorem distance_symmetric (p q : Point.t) :
  Point.distance p q = Point.distance q p
  /\ within p q = within q p.
Proof.
  split; [apply distance_swap |].
  unfold within. rewrite distance_swap. reflexivity.
Qed.

(** X3.  The distance from a point with finite coordinates to itself is
    returned, and it is zero: a cell passes the distance test of the
    scan with itself exactly when the contact radius is positive. *)
Theorem distance_to_itself (c : Cell.t) :
  PrimFloat.is_finite (Point.x (Cell.location c)) = true ->
  PrimFloat.is_finite (Point.y (Cell.location c)) = true ->
  Point.distance (Cell.location c) (Cell.location c) = python.Return 0%float
  /\ near c c = (0 <? constants.CELL_RADIUS)%float.
Proof.
  intros Hx Hy.
  assert (H0 : Point.distance (Cell.location c) (Cell.location c)
               = python.Return 0%float).
  { unfold Point.distance.
    rewrite (sub_self _ Hx), (sub_self _ Hy). reflexivity. }
  split; [exact H0 |]. unfold near, within. rewrite H0. reflexivity.
Qed.

End Points.

Lemma distance_to_itself_witness :
  Point.distance (R := still) (Point.mk 3 4) (Point.mk 3 4)
  = python.Return 0%float
  /\ near (K := pj02) (R := still) (resting 3 0) (resting 3 0) = true.
Proof.
  split.
  - apply (distance_to_itself (K := pj02) (R := still)
             (Cell.mk (Point.mk 3 4) (Point.mk 0 0) 0)); reflexivity.
  - rewrite (proj2 (distance_to_itself (K := pj02) (R := still)
                      (resting 3 0) eq_refl eq_refl)).
    reflexivity.
Defined.

(** ** The contact scan *)

Section Scan.
Context {K : constants.t} {R : runtime.t}.

Lemma alter_keeps_locations (f : Cell.t -> Cell.t) (store : list Cell.t) i :
  (forall c, Cell.location (f c) = Cell.location c) ->
  Cell.location <$> alter f i store = Cell.location <$> store.
Proof.
  intros Hf. apply list_eq. intros k. rewrite !list_lookup_fmap.
  destruct (decide (i = k)) as [-> | Hne].
  - rewrite list_lookup_alter_eq.
    destruct (store !! k); cbn; [rewrite Hf |]; reflexivity.
  - rewrite list_lookup_alter_ne by exact Hne. reflexivity.
Qed.

Lemma contact_with_keeps_locations (store : list Cell.t) i j :
  Cell.location <$> Cell.contact_with i j store = Cell.location <$> store.
Proof.
  unfold Cell.contact_with.
  repeat match goal with
         | |- context [if ?c then _ else _] => destruct c
         end;
    rewrite ?alter_keeps_locations by reflexivity; reflexivity.
Qed.

(** Once an exception is raised, the turns of the loops that are left
    do nothing. *)
Lemma check_pair_raised i j (st : Model.outcome (list Cell.t)) :
  Model.raised st <> None -> Model.check_pair i j st = st.
Proof.
  intros H. unfold Model.check_pair.
  destruct (Model.raised st); [reflexivity | contradiction].
Qed.

Lemma foldl_raised
    (body : nat -> Model.outcome (list Cell.t)
            -> Model.outcome (list Cell.t)) :
  (forall x st, Model.raised st <> None -> body x st = st) ->
  forall (l : list nat) st,
    Model.raised st <> None -> foldl (fun st x => body x st) st l = st.
Proof.
  intros Hbody l. induction l as [| x l IH]; intros st Hst; cbn;
    [reflexivity |].
  rewrite (Hbody x st Hst). apply IH, Hst.
Qed.

Lemma check_row_raised i (st : Model.outcome (list Cell.t)) :
  Model.raised st <> None -> Model.check_row i st = st.
Proof.
  intros H. unfold Model.check_row.
  apply (foldl_raised (Model.check_pair i)); [| exact H].
  intros x st'. apply check_pair_raised.
Qed.

Lemma check_pair_follows (locs : list Point.t) i j
    (st : Model.outcome (list Cell.t)) :
  Cell.location <$> Model.after st = locs ->
  follows locs (pair_calls locs i j) (pair_errors locs i j) st
    (Model.check_pair i j st).
Proof.
  intros <-. unfold follows, Model.check_pair, pair_calls, pair_errors, within.
  rewrite !list_lookup_fmap.
  destruct (Model.raised st) as [e |] eqn:Hr.
  { rewrite Hr. split; [reflexivity |]. split; [| reflexivity].
    eexists. split; [reflexivity | discriminate]. }
  destruct (Model.after st !! i) as [ci |], (Model.after st !! j) as [cj |];
    cbn [fmap option_fmap option_map head];
    try (rewrite Hr; split; [reflexivity |]; split; [| reflexivity];
         exists []; split; [reflexivity | reflexivity]).
  destruct (Point.distance (Cell.location ci) (Cell.location cj))
    as [e | dist]; cbn [Model.after Model.calls Model.raised head].
  { split; [reflexivity |]. split; [| reflexivity].
    eexists. split; [reflexivity | discriminate]. }
  destruct (negb (j =? i)%nat); cbn [andb];
    [| rewrite Hr; split; [reflexivity |]; split; [| reflexivity];
       exists []; split; reflexivity].
  destruct (dist <? constants.CELL_RADIUS)%float;
    cbn [Model.after Model.calls Model.raised].
  - split; [apply contact_with_keeps_locations |]. split; [| reflexivity].
    exists []. rewrite app_nil_r. split; reflexivity.
  - rewrite Hr. split; [reflexivity |]. split; [| reflexivity].
    exists []. split; reflexivity.
Qed.

Lemma foldl_follows (locs : list Point.t)
    (body : nat -> Model.outcome (list Cell.t)
            -> Model.outcome (list Cell.t))
    (cs : nat -> list Model.event) (es : nat -> list python.exn) :
  (forall x st, Model.raised st <> None -> body x st = st) ->
  (forall x st, Cell.location <$> Model.after st = locs ->
                follows locs (cs x) (es x) st (body x st)) ->
  forall (l : list nat) st,
    Cell.location <$> Model.after st = locs ->
    follows locs (l ≫= cs) (l ≫= es) st (foldl (fun st x => body x st) st l).
Proof.
  intros Hraised Hbody l.
  induction l as [| x l IH]; intros st Hst; cbn [foldl].
  - split; [exact Hst |]. split.
    + exists []. split; reflexivity.
    + cbn. destruct (Model.raised st); reflexivity.
  - destruct (Hbody x st Hst) as (Hl1 & (rest1 & Hc1 & Hn1) & Hr1).
    destruct (IH (body x st) Hl1) as (Hl2 & (rest2 & Hc2 & Hn2) & Hr2).
    change ((x :: l) ≫= cs) with (cs x ++ (l ≫= cs)).
    change ((x :: l) ≫= es) with (es x ++ (l ≫= es)).
    split; [exact Hl2 |].
    destruct (Model.raised (body x st)) as [e |] eqn:Hr.
    + rewrite (foldl_raised body Hraised l (body x st)) in *
        by (rewrite Hr; discriminate).
      split.
      * exists (rest1 ++ (l ≫= cs)).
        rewrite !app_assoc, Hc1. split; [reflexivity |].
        rewrite Hr. discriminate.
      * rewrite Hr. destruct (Model.raised st); [congruence |].
        destruct (es x); [discriminate | exact Hr1].
    + rewrite (Hn1 eq_refl), app_nil_r in Hc1. split.
      * exists rest2. rewrite app_assoc, Hc1. split; [exact Hc2 | exact Hn2].
      * rewrite Hr2. destruct (Model.raised st); [discriminate |].
        destruct (es x); [reflexivity | discriminate].
Qed.

Lemma check_row_follows (locs : list Point.t) i
    (st : Model.outcome (list Cell.t)) :
  Cell.location <$> Model.after st = locs ->
  follows locs (row_calls locs i) (row_errors locs i) st
    (Model.check_row i st).
Proof.
  intros Hst. unfold Model.check_row, row_calls, row_errors.
  replace (length (Model.after st)) with (length locs)
    by (rewrite <- Hst; apply length_fmap).
  apply (foldl_follows locs (Model.check_pair i)); [| | exact Hst].
  - intros x st'. apply check_pair_raised.
  - intros x st'. apply check_pair_follows.
Qed.

(** The scan read off the locations: the cells stay where they are; the
    calls made are those of [scan_calls], all of them if the scan
    returns and the first ones if it raises; the exception raised is the
    first of [scan_errors], if there is one; the clock is not
    touched. *)
Lemma check_contacts_calls (m : Model.t) :
  let locs := Cell.location <$> Model.population m in
  let out := Model.check_contacts m in
  Cell.location <$> Model.population (Model.after out) = locs
  /\ (exists rest,
        scan_calls locs = Model.calls out ++ rest
        /\ (Model.raised out = None -> rest = []))
  /\ Model.raised out = head (scan_errors locs)
  /\ Model.time (Model.after out) = Model.time m.
Proof.
  intros locs out. unfold out, Model.check_contacts, scan_calls, scan_errors.
  cbn [Model.after Model.calls Model.raised Model.population Model.time].
  unfold locs at 3 5. rewrite !length_fmap.
  destruct (foldl_follows locs Model.check_row (row_calls locs)
              (row_errors locs) check_row_raised
              (fun x st => check_row_follows locs x st)
              (seq 0 (length (Model.population m)))
              (Model.mk_outcome (Model.population m) [] None) eq_refl)
    as (H1 & H2 & H3).
  auto.
Qed.

Lemma check_contacts_logged (m : Model.t) e :
  e ∈ Model.calls (Model.check_contacts m) ->
  e ∈ scan_calls (Cell.location <$> Model.population m).
Proof.
  destruct (check_contacts_calls m) as (_ & (rest & -> & _) & _).
  intros He. apply elem_of_app. now left.
Qed.

Lemma check_contacts_returned (m : Model.t) :
  Model.raised (Model.check_contacts m) = None ->
  Model.calls (Model.check_contacts m)
  = scan_calls (Cell.location <$> Model.population m).
Proof.
  destruct (check_contacts_calls m) as (_ & (rest & -> & Hrest) & _).
  intros H. rewrite (Hrest H), app_nil_r. reflexivity.
Qed.

Lemma elem_of_pair_calls (locs : list Point.t) i j e :
  e ∈ pair_calls locs i j <->
  e = Model.ContactWith i j
  /\ j <> i
  /\ exists p q, locs !! i = Some p /\ locs !! j = Some q
                 /\ within p q = true.
Proof.
  unfold pair_calls.
  destruct (locs !! i) as [p |], (locs !! j) as [q |];
    try (split; [intros H; inversion H
                | intros (_ & _ & ? & ? & ? & ? & _); discriminate]).
  destruct (Nat.eqb_spec j i) as [Heq | Hne]; cbn.
  - split; [intros H; inversion H | intros (_ & H & _); contradiction].
  - destruct (within p q) eqn:Hd.
    + split.
      * intros H. apply list_elem_of_singleton in H as ->. eauto 10.
      * intros (-> & _). apply list_elem_of_singleton. reflexivity.
    + split; [intros H; inversion H |].
      intros (_ & _ & p' & q' & Hp & Hq & Hd'). congruence.
Qed.

Lemma elem_of_scan_calls (locs : list Point.t) e :
  e ∈ scan_calls locs <->
  exists i j p q,
    e = Model.ContactWith i j /\ (1 <= j)%nat /\ j <> i
    /\ locs !! i = Some p /\ locs !! j = Some q
    /\ within p q = true.
Proof.
  unfold scan_calls, row_calls. rewrite list_elem_of_bind. split.
  - intros (i & Hrow & Hi). apply list_elem_of_bind in Hrow as (j & Hp & Hj).
    apply elem_of_seq in Hj.
    apply elem_of_pair_calls in Hp as (-> & Hne & p & q & H1 & H2 & H3).
    exists i, j, p, q. repeat split; try assumption; lia.
  - intros (i & j & p & q & -> & Hj & Hne & Hp & Hq & Hd).
    exists i. split.
    + apply list_elem_of_bind. exists j. split.
      * apply elem_of_pair_calls. eauto 10.
      * apply elem_of_seq. apply lookup_lt_Some in Hq. lia.
    + apply elem_of_seq. apply lookup_lt_Some in Hp. lia.
Qed.

Lemma elem_of_scan_errors (locs : list Point.t) e :
  e ∈ scan_errors locs <->
  exists i j p q,
    (1 <= j)%nat /\ locs !! i = Some p /\ locs !! j = Some q
    /\ Point.distance p q = python.Raise e.
Proof.
  unfold scan_errors, row_errors. rewrite list_elem_of_bind. split.
  - intros (i & Hrow & Hi). apply list_elem_of_bind in Hrow as (j & Hp & Hj).
    apply elem_of_seq in Hj. unfold pair_errors in Hp.
    destruct (locs !! i) as [p |] eqn:Hpi; [| inversion Hp].
    destruct (locs !! j) as [q |] eqn:Hqj; [| inversion Hp].
    destruct (Point.distance p q) as [e' | d] eqn:Hd; [| inversion Hp].
    apply list_elem_of_singleton in Hp as ->.
    exists i, j, p, q. repeat split; try assumption; lia.
  - intros (i & j & p & q & Hj & Hp & Hq & Hd).
    exists i. split.
    + apply list_elem_of_bind. exists j. split.
      * unfold pair_errors. rewrite Hp, Hq, Hd.
        apply list_elem_of_singleton. reflexivity.
      * apply elem_of_seq. apply lookup_lt_Some in Hq. lia.
    + apply elem_of_seq. apply lookup_lt_Some in Hp. lia.
Qed.

Lemma check_contacts_only_contacts (m : Model.t) e :
  e ∈ Model.calls (Model.check_contacts m) ->
  exists i j, e = Model.ContactWith i j.
Proof.
  intros He. apply check_contacts_logged in He.
  apply elem_of_scan_calls in He as (i & j & _ & _ & -> & _). eauto.
Qed.

(** The calls of a scan, read off the cells. *)
Lemma check_contacts_call (m : Model.t) i j :
  let pop := Model.population m in
  let out := Model.check_contacts m in
  (Model.ContactWith i j ∈ Model.calls out ->
   (1 <= j)%nat /\ j <> i
   /\ exists ci cj, pop !! i = Some ci /\ pop !! j = Some cj
                    /\ near ci cj = true)
  /\ (Model.raised out = None ->
      (1 <= j)%nat -> j <> i ->
      forall ci cj, pop !! i = Some ci -> pop !! j = Some cj ->
                    near ci cj = true ->
                    Model.ContactWith i j ∈ Model.calls out).
Proof.
  intros pop out. split.
  - intros He. apply check_contacts_logged in He.
    apply elem_of_scan_calls in He
      as (i' & j' & p & q & He & Hj & Hne & Hp & Hq & Hd).
    injection He as <- <-.
    rewrite list_lookup_fmap in Hp, Hq. fold pop in Hp, Hq.
    destruct (pop !! i) as [ci |] eqn:Hi; [| discriminate].
    destruct (pop !! j) as [cj |] eqn:Hj'; [| discriminate].
    cbn in Hp, Hq. injection Hp as <-. injection Hq as <-.
    repeat split; try assumption. exists ci, cj. auto.
  - intros Hret Hj Hne ci cj Hi Hj' Hd. unfold out.
    rewrite (check_contacts_returned m Hret). apply elem_of_scan_calls.
    exists i, j, (Cell.location ci), (Cell.location cj).
    rewrite !list_lookup_fmap. fold pop. rewrite Hi, Hj'. auto 10.
Qed.

(** The exception of a scan, read off the cells. *)
Lemma check_contacts_raise (m : Model.t) :
  let pop := Model.population m in
  let out := Model.check_contacts m in
  (Model.raised out = None <->
   forall i j ci cj,
     (1 <= j)%nat -> pop !! i = Some ci -> pop !! j = Some cj ->
     exists d,
       Point.distance (Cell.location ci) (Cell.location cj)
       = python.Return d)
  /\ (forall e, Model.raised out = Some e ->
        exists i j ci cj,
          (1 <= j)%nat /\ pop !! i = Some ci /\ pop !! j = Some cj
          /\ Point.distance (Cell.location ci) (Cell.location cj)
             = python.Raise e).
Proof.
  intros pop out.
  destruct (check_contacts_calls m) as (_ & _ & Hr & _).
  fold out pop in Hr.
  assert (Hfrom : forall e,
    e ∈ scan_errors (Cell.location <$> pop) ->
    exists i j ci cj,
      (1 <= j)%nat /\ pop !! i = Some ci /\ pop !! j = Some cj
      /\ Point.distance (Cell.location ci) (Cell.location cj)
         = python.Raise e).
  { intros e He.
    apply elem_of_scan_errors in He as (i & j & p & q & Hj & Hp & Hq & Hd).
    rewrite list_lookup_fmap in Hp, Hq.
    destruct (pop !! i) as [ci |] eqn:Hi; [| discriminate].
    destruct (pop !! j) as [cj |] eqn:Hj'; [| discriminate].
    cbn in Hp, Hq. injection Hp as <-. injection Hq as <-.
    exists i, j, ci, cj. auto. }
  split; [split |].
  - intros Hnone i j ci cj Hj Hi Hj'.
    destruct (Point.distance (Cell.location ci) (Cell.location cj))
      as [e | d] eqn:Hd; [| eauto].
    exfalso.
    assert (He : e ∈ scan_errors (Cell.location <$> pop)).
    { apply elem_of_scan_errors.
      exists i, j, (Cell.location ci), (Cell.location cj).
      rewrite !list_lookup_fmap, Hi, Hj'. auto. }
    rewrite Hr in Hnone.
    destruct (scan_errors (Cell.location <$> pop)); [inversion He |].
    cbn in Hnone. discriminate Hnone.
  - intros Hall. rewrite Hr.
    destruct (scan_errors (Cell.location <$> pop)) as [| e l] eqn:He;
      [reflexivity |].
    destruct (Hfrom e) as (i & j & ci & cj & Hj & Hi & Hj' & Hd);
      [left |].
    destruct (Hall i j ci cj Hj Hi Hj') as [d Hd']. congruence.
  - intros e He. rewrite Hr in He. apply Hfrom.
    destruct (scan_errors (Cell.location <$> pop)) as [| e' l];
      [discriminate |].
    injection He as ->. left.
Qed.

(** C5, as the code has it.  In every call of [check_contacts],
    [contact_with] is called on the cells at [i] and [j] only when
    [j >= 1], [j <> i] and the distance test of the scan holds of them:
    no cell is ever brought into contact with itself.  The call raises
    exactly when [Point.distance] raises for the cells at some [i] and
    [j >= 1], and the exception is that of the distance; the calls made
    by then are the first of those that a whole scan makes.  When the
    call returns, [contact_with] has been called on
    every such [i] and [j], and so every two distinct cells that pass
    the test [distance < CELL_RADIUS] have been brought into contact at
    least once, in one order or the other, whatever their indices. *)
Theorem check_contacts_covers_every_pair (m : Model.t) :
  let pop := Model.population m in
  let out := Model.check_contacts m in
  (forall i j,
      Model.ContactWith i j ∈ Model.calls out ->
      (1 <= j)%nat /\ j <> i
      /\ exists ci cj, pop !! i = Some ci /\ pop !! j = Some cj
                       /\ near ci cj = true)
  /\ (forall i j, Model.ContactWith i j ∈ Model.calls out -> i <> j)
  /\ (forall e, e ∈ Model.calls out -> exists i j, e = Model.ContactWith i j)
  /\ (Model.raised out = None <->
      forall i j ci cj,
        (1 <= j)%nat -> pop !! i = Some ci -> pop !! j = Some cj ->
        exists d,
          Point.distance (Cell.location ci) (Cell.location cj)
          = python.Return d)
  /\ (forall e, Model.raised out = Some e ->
        exists i j ci cj,
          (1 <= j)%nat /\ pop !! i = Some ci /\ pop !! j = Some cj
          /\ Point.distance (Cell.location ci) (Cell.location cj)
             = python.Raise e)
  /\ (exists rest,
        scan_calls (Cell.location <$> pop) = Model.calls out ++ rest
        /\ (Model.raised out = None -> rest = []))
  /\ (Model.raised out = None ->
      (forall i j,
          Model.ContactWith i j ∈ Model.calls out <->
          (1 <= j)%nat /\ j <> i
          /\ exists ci cj, pop !! i = Some ci /\ pop !! j = Some cj
                           /\ near ci cj = true)
      /\ (forall a b ca cb,
             a <> b -> pop !! a = Some ca -> pop !! b = Some cb ->
             near ca cb = true ->
             Model.ContactWith a b ∈ Model.calls out
             \/ Model.ContactWith b a ∈ Model.calls out)).
Proof.
  intros pop out.
  split; [intros i j; apply (check_contacts_call m i j) |].
  split.
  { intros i j Hin. apply (check_contacts_call m i j) in Hin as (_ & Hne & _).
    congruence. }
  split; [intros e He; exact (check_contacts_only_contacts m e He) |].
  split; [apply (check_contacts_raise m) |].
  split; [apply (check_contacts_raise m) |].
  split; [apply (check_contacts_calls m) |].
  intros Hret.
  assert (Hlog : forall i j,
    (1 <= j)%nat -> j <> i ->
    forall ci cj, pop !! i = Some ci -> pop !! j = Some cj ->
                  near ci cj = true ->
                  Model.ContactWith i j ∈ Model.calls out).
  { intros i j. apply (check_contacts_call m i j), Hret. }
  split.
  - intros i j. split; [apply (check_contacts_call m i j) |].
    intros (Hj & Hne & ci & cj & Hi & Hj' & Hd). eauto.
  - intros a b ca cb Hab Ha Hb Hnab.
    destruct (Nat.eq_dec b 0%nat) as [-> | Hb0].
    + right. apply (Hlog 0%nat a) with cb ca; try assumption; [lia |].
      rewrite near_swap. exact Hnab.
    + left. apply (Hlog a b) with ca cb; try assumption; [lia | congruence].
Qed.

End Scan.

(** ** One step of the simulation *)

Section Step.
Context {K : constants.t} {R : runtime.t}.

Lemma move_every_cell (pre pop : list Cell.t) (log : list Model.event) :
  foldl (fun st i => Model.move i st) (pre ++ pop, log)
        (seq (length pre) (length pop))
  = (pre ++ ((fun c => Model.enforce_bounds (Cell.tick c)) <$> pop),
     log ++ (seq (length pre) (length pop)
             ≫= (fun i => [Model.CellTick i; Model.EnforceBounds i]))).
Proof.
  revert pre log. induction pop as [| c pop IH]; intros pre log; cbn.
  - rewrite !app_nil_r. reflexivity.
  - unfold Model.move at 2. cbn [fst snd].
    replace (length pre) with (length pre + 0)%nat at 1 by lia.
    rewrite alter_app_r. cbn [alter list_alter].
    rewrite (cons_middle _ pre), app_assoc.
    replace (S (length pre)) with (length (pre ++ [Model.enforce_bounds (Cell.tick c)]))
      by (rewrite length_app; cbn; lia).
    rewrite IH. rewrite <- !app_assoc. reflexivity.
Qed.

(** One step is the scan of the population in which every cell has been
    moved and put back inside the bounds, after the calls that move the
    cells. *)
Lemma tick_unfold (m : Model.t) :
  let moved :=
    (fun c => Model.enforce_bounds (Cell.tick c)) <$> Model.population m in
  let scan := Model.check_contacts (Model.mk moved (Model.time m + 1)) in
  Model.tick m
  = Model.mk_outcome (Model.after scan)
      (move_calls (length (Model.population m)) ++ Model.calls scan)
      (Model.raised scan).
Proof.
  intros moved scan. unfold Model.tick. cbn [Model.population Model.time].
  pose proof (move_every_cell [] (Model.population m) []) as Hmove.
  cbn [app length] in Hmove. rewrite Hmove. cbn [fst snd app].
  reflexivity.
Qed.

(** C7.  [Model.tick] adds one to [time]; it calls [Cell.tick] and then
    [enforce_bounds] on each cell in turn, and only then scans the
    contacts, so that the scan runs on the population in which every
    cell has been moved and put back inside the bounds.  The scan makes
    no call other than [contact_with], and the step ends as the scan
    does.  [check_contacts] and [is_complete] leave [time] as it is. *)
Theorem tick_moves_then_scans (m : Model.t) :
  let moved :=
    (fun c => Model.enforce_bounds (Cell.tick c)) <$> Model.population m in
  let scan := Model.check_contacts (Model.mk moved (Model.time m + 1)) in
  Model.tick m
  = Model.mk_outcome (Model.after scan)
      (move_calls (length (Model.population m)) ++ Model.calls scan)
      (Model.raised scan)
  /\ Model.time (Model.after (Model.tick m)) = Model.time m + 1
  /\ (forall e, e ∈ Model.calls scan -> exists i j, e = Model.ContactWith i j)
  /\ Model.time (Model.after (Model.check_contacts m)) = Model.time m
  /\ Model.time (Model.is_complete m).2 = Model.time m.
Proof.
  intros moved scan.
  split; [apply tick_unfold |]. split; [| split; [| split]].
  - rewrite tick_unfold. cbn [Model.after].
    destruct (check_contacts_calls
                (Model.mk ((fun c => Model.enforce_bounds (Cell.tick c))
                           <$> Model.population m) (Model.time m + 1)))
      as (_ & _ & _ & ->).
    reflexivity.
  - intros e He.
    apply (check_contacts_only_contacts _ e He).
  - apply check_contacts_calls.
  - unfold Model.is_complete. rewrite is_complete_loop_pure. reflexivity.
Qed.

End Step.

(** ** Reflection on the bounds *)

Section Binary64.

(** Multiplying a finite binary64 number by [-1] is exact: the product
    of the mantissas is shifted back by the 52 bits of the mantissa of
    [-1], and nothing is rounded off. *)
Lemma shr_fexp_times_two_pow_52 m e :
  bounded prec emax m e = true ->
  shr_fexp prec emax (Zpos (m * 4503599627370496)) (e + -52) loc_Exact
  = ({| shr_m := Zpos m; shr_r := false; shr_s := false |}, e).
Proof.
  intros Hb. unfold bounded, canonical_mantissa in Hb.
  apply andb_prop in Hb as [Hc _]. apply Z.eqb_eq in Hc.
  unfold shr_fexp.
  assert (Hd : Zdigits2 (Z.pos (m * 4503599627370496))
               = Zpos (digits2_pos m) + 52).
  { rewrite Pos.mul_comm. cbv [Pos.mul]. cbn [Zdigits2 digits2_pos]. lia. }
  rewrite Hd.
  replace (Z.pos (digits2_pos m) + 52 + (e + -52))
    with (Z.pos (digits2_pos m) + e) by lia.
  rewrite Hc.
  replace (e - (e + -52)) with 52 by lia.
  rewrite Pos.mul_comm. cbv [Pos.mul].
  cbv [shr shr_record_of_loc iter_pos shr_1]. f_equal. lia.
Qed.

Lemma shr_fexp_canonical m e :
  bounded prec emax m e = true ->
  shr_fexp prec emax (Zpos m) e loc_Exact
  = ({| shr_m := Zpos m; shr_r := false; shr_s := false |}, e).
Proof.
  intros Hb. unfold bounded, canonical_mantissa in Hb.
  apply andb_prop in Hb as [Hc _]. apply Z.eqb_eq in Hc.
  unfold shr_fexp. cbn [Zdigits2]. rewrite Hc, Z.sub_diag. reflexivity.
Qed.

Lemma SF64mul_minus_one s m e :
  bounded prec emax m e = true ->
  SF64mul (S754_finite s m e) (Prim2SF (-1)%float)
  = S754_finite (negb s) m e.
Proof.
  intros Hb.
  change (Prim2SF (-1)%float) with (S754_finite true 4503599627370496 (-52)).
  unfold SF64mul, SFmul, binary_round_aux.
  rewrite (shr_fexp_times_two_pow_52 m e Hb).
  cbn [shr_m loc_of_shr_record round_nearest_even].
  rewrite (shr_fexp_canonical m e Hb). cbn [shr_m].
  unfold bounded in Hb. apply andb_prop in Hb as [_ He]. rewrite He.
  destruct s; reflexivity.
Qed.

(** [v *= -1] makes a positive velocity negative. *)
Lemma flip_of_positive_is_negative (d : float) :
  (0 <? d)%float = true -> (d * -1 <? 0)%float = true.
Proof.
  rewrite !ltb_spec, mul_spec.
  change (Prim2SF 0%float) with (S754_zero false).
  pose proof (Prim2SF_valid d) as Hv.
  destruct (Prim2SF d) as [s | s | | s m e]; try discriminate.
  - destruct s; [discriminate | reflexivity].
  - destruct s; [discriminate |]. intros _.
    rewrite (SF64mul_minus_one false m e Hv). reflexivity.
Qed.

End Binary64.

Section Bounds.
Context {K : constants.t}.

Lemma tick_moves c :
  Cell.location (Cell.tick c) = Point.add (Cell.location c) (Cell.direction c)
  /\ Cell.direction (Cell.tick c) = Cell.direction c.
Proof.
  unfold Cell.tick.
  repeat match goal with
         | |- context [if ?b then _ else _] => destruct b
         end; split; reflexivity.
Qed.

Lemma enforce_bounds_by_axis c :
  let bx := bounce constants.MAX_X constants.MIN_X
              (Point.x (Cell.location c), Point.x (Cell.direction c)) in
  let by_ := bounce constants.MAX_Y constants.MIN_Y
               (Point.y (Cell.location c), Point.y (Cell.direction c)) in
  Model.enforce_bounds c
  = Cell.mk (Point.mk bx.1 by_.1) (Point.mk bx.2 by_.2) (Cell.sickness c).
Proof.
  destruct c as [[x y] [dx dy] s].
  unfold Model.enforce_bounds, bounce, Model.flip_direction_x,
    Model.flip_direction_y, Model.set_location_x, Model.set_location_y.
  cbn.
  destruct (constants.MAX_X <? x)%float; cbn;
    destruct (constants.MAX_Y <? y)%float; cbn;
    match goal with
    | |- context [(?a <? constants.MIN_X)%float] =>
        destruct (a <? constants.MIN_X)%float; cbn
    end;
    match goal with
    | |- context [(?a <? constants.MIN_Y)%float] =>
        destruct (a <? constants.MIN_Y)%float; cbn
    end; reflexivity.
Qed.

(** C8, as the code has it.  Take a cell on the upper x-bound whose
    x-velocity is positive and large enough for the float sum
    [MAX_X + direction.x] to lie above [MAX_X], the lower bound being
    no greater than the upper one.  After [Cell.tick] and then
    [enforce_bounds] the cell is on the bound again and its x-velocity
    is the old one times [-1], which is negative.  The y-axis is
    treated by itself, with the same rule. *)
Theorem reflection_at_upper_x_bound (c : Cell.t) :
  (constants.MAX_X <? constants.MIN_X)%float = false ->
  Point.x (Cell.location c) = constants.MAX_X ->
  (0 <? Point.x (Cell.direction c))%float = true ->
  (constants.MAX_X <? constants.MAX_X + Point.x (Cell.direction c))%float
  = true ->
  let c' := Model.enforce_bounds (Cell.tick c) in
  Point.x (Cell.location c') = constants.MAX_X
  /\ (Point.x (Cell.direction c') <? 0)%float = true
  /\ Point.x (Cell.direction c') = (Point.x (Cell.direction c) * -1)%float
  /\ (Point.y (Cell.location c'), Point.y (Cell.direction c'))
     = bounce constants.MAX_Y constants.MIN_Y
         ((Point.y (Cell.location c) + Point.y (Cell.direction c))%float,
          Point.y (Cell.direction c)).
Proof.
  intros Hbounds Hx Hpos Hstep c'.
  destruct (tick_moves c) as [Hloc Hdir].
  unfold c'. rewrite enforce_bounds_by_axis. cbn [Cell.location Cell.direction
    Point.x Point.y fst snd].
  rewrite Hloc, Hdir. cbn [Point.add Point.x Point.y].
  assert (Hbx : bounce constants.MAX_X constants.MIN_X
                  ((Point.x (Cell.location c) + Point.x (Cell.direction c))%float,
                   Point.x (Cell.direction c))
                = (constants.MAX_X, (Point.x (Cell.direction c) * -1)%float)).
  { unfold bounce. cbn [fst snd]. rewrite Hx, Hstep. cbn [fst snd].
    rewrite Hbounds. reflexivity. }
  rewrite Hbx. cbn [fst snd].
  repeat split; try reflexivity.
  - now apply flip_of_positive_is_negative.
  - symmetry. apply surjective_pairing.
Qed.

End Bounds.

(** ** The constructor *)

Section Constructor.
Context {K : constants.t} {R : runtime.t}.

Lemma range_from_zero n :
  Model.range 0 n = Z.of_nat <$> seq 0 (Z.to_nat n).
Proof.
  unfold Model.range, seqZ. rewrite Z.sub_0_r.
  apply list_eq. intros i. rewrite !list_lookup_fmap.
  destruct (seq 0 (Z.to_nat n) !! i); cbn; [f_equal; lia | reflexivity].
Qed.

Lemma slot_in_range (len n : nat) :
  (n < len)%nat -> Model.slot len (Z.of_nat n) = Some n.
Proof.
  intros Hn. unfold Model.slot.
  destruct (Z.leb_spec 0 (Z.of_nat n)); [| lia].
  destruct (Z.ltb_spec (Z.of_nat n) (Z.of_nat len)); [| lia].
  rewrite Nat2Z.id. reflexivity.
Qed.

Lemma append_new_cell_run speed s :
  exists c,
    Model.append_new_cell speed s
    = (python.Return tt,
       Model.mk_building (Model.built s ++ [c]) (3 + Model.draws s))
    /\ Cell.sickness c = constants.VULNERABLE.
Proof. eexists. split; reflexivity. Qed.

(** The first loop: every turn appends a vulnerable cell. *)
Lemma fill_loop speed (l : list Z) s :
  exists s',
    Model.for_each l (fun _ => Model.append_new_cell speed) s
    = (python.Return tt, s')
    /\ Cell.sickness <$> Model.built s'
       = (Cell.sickness <$> Model.built s)
         ++ replicate (length l) constants.VULNERABLE.
Proof.
  revert s. induction l as [| v l IH]; intros s.
  - exists s. cbn. rewrite app_nil_r. auto.
  - cbn [Model.for_each]. unfold Model.bind at 1.
    destruct (append_new_cell_run speed s) as (c & -> & Hc).
    destruct (IH (Model.mk_building (Model.built s ++ [c])
                    (3 + Model.draws s))) as (s' & -> & Hs').
    exists s'. split; [reflexivity |].
    rewrite Hs'. cbn [Model.built]. rewrite fmap_app. cbn.
    rewrite Hc, <- app_assoc. reflexivity.
Qed.

(** The second and the third loop: the turn number [k] calls [method]
    on the cell at the index [base + k], which is vulnerable, and
    appends a vulnerable cell. *)
Lemma mark_loop speed (method : Cell.t -> Cell.t) (v : Z)
    (index : Z -> Z) (base : nat) :
  (forall c, Cell.sickness (method c) = v) ->
  (forall k : nat, index (Z.of_nat k) = Z.of_nat (base + k)) ->
  forall (n k : nat) s (pre : list Z) (rest : nat),
    length pre = base ->
    Cell.sickness <$> Model.built s
    = pre ++ replicate k v ++ replicate (S rest) constants.VULNERABLE ->
    exists s',
      Model.for_each (Z.of_nat <$> seq k n)
        (fun i => Model.bind (Model.update_item (index i) method)
                    (fun _ => Model.append_new_cell speed)) s
      = (python.Return tt, s')
      /\ Cell.sickness <$> Model.built s'
         = pre ++ replicate (k + n) v
               ++ replicate (S rest) constants.VULNERABLE.
Proof.
  intros Hmethod Hindex n.
  induction n as [| n IH]; intros k s pre rest Hpre Hs.
  - exists s. rewrite Nat.add_0_r. auto.
  - cbn [seq fmap list_fmap Model.for_each].
    assert (Hlen : length (Model.built s) = (base + k + S rest)%nat).
    { rewrite <- (length_fmap Cell.sickness), Hs.
      rewrite !length_app, !length_replicate. lia. }
    unfold Model.bind at 1. unfold Model.bind at 1.
    unfold Model.update_item at 1.
    rewrite Hindex, slot_in_range by lia.
    destruct (append_new_cell_run speed
                (Model.mk_building
                   (alter method (base + k)%nat (Model.built s))
                   (Model.draws s))) as (c & -> & Hc).
    cbn [Model.built Model.draws].
    destruct (IH (S k)
                (Model.mk_building
                   (alter method (base + k)%nat (Model.built s) ++ [c])
                   (3 + Model.draws s)) pre rest Hpre) as (s' & -> & Hs').
    + cbn [Model.built]. rewrite fmap_app. cbn [fmap list_fmap].
      rewrite Hc.
      rewrite (list_fmap_alter Cell.sickness method (fun _ => v))
        by (apply Forall_forall; intros; apply Hmethod).
      rewrite Hs, <- Hpre.
      rewrite (alter_app_r (fun _ => v) pre _ k).
      rewrite alter_app_r_alt by (rewrite length_replicate; lia).
      rewrite length_replicate, Nat.sub_diag.
      cbn [replicate alter list_alter].
      rewrite !replicate_cons_app, <- !app_assoc. reflexivity.
    + exists s'. split; [reflexivity |].
      rewrite Hs'. f_equal. f_equal. f_equal. lia.
Qed.

Lemma checks_pass cells ninfected nimmune :
  0 < ninfected < cells -> 0 <= nimmune < cells ->
  (ninfected >=? cells) || (ninfected <=? 0) = false
  /\ (nimmune >=? cells) || (nimmune <? 0) = false.
Proof.
  intros H1 H2. rewrite !Z.geb_leb. split; apply orb_false_intro;
    first [apply Z.leb_gt | apply Z.ltb_ge]; lia.
Qed.

(** The disease states of the population that [__init__] leaves when
    some cell is left vulnerable. *)
Lemma init_profile cells speed ninfected nimmune :
  0 < ninfected < cells -> 0 <= nimmune < cells ->
  ninfected + nimmune < cells ->
  exists s,
    Model.__init__ cells speed ninfected nimmune Model.fresh
    = (python.Return tt, s)
    /\ Cell.sickness <$> Model.built s
       = replicate (Z.to_nat ninfected) constants.INFECTED
         ++ replicate (Z.to_nat nimmune) constants.IMMUNE
         ++ replicate (Z.to_nat (cells - ninfected - nimmune))
              constants.VULNERABLE.
Proof.
  intros H1 H2 H3.
  destruct (checks_pass cells ninfected nimmune H1 H2) as [C1 C2].
  unfold Model.__init__. unfold Model.bind at 1.
  cbn [Model.reset_population Model.fresh Model.draws].
  rewrite C1, C2. rewrite !range_from_zero.
  destruct (Z.to_nat (cells - ninfected - nimmune)) as [| rest] eqn:Hrest;
    [lia |].
  unfold Model.bind at 1.
  destruct (fill_loop speed (Z.of_nat <$> seq 0 (S rest))
              (Model.mk_building [] 0)) as (s1 & -> & Hs1).
  rewrite length_fmap, length_seq in Hs1. cbn [Model.built fmap list_fmap app]
    in Hs1.
  unfold Model.bind at 1.
  destruct (mark_loop speed Cell.contract_disease constants.INFECTED
              (fun i => i) 0 (fun _ => eq_refl) (fun _ => eq_refl)
              (Z.to_nat ninfected) 0 s1 [] rest eq_refl Hs1)
    as (s2 & -> & Hs2).
  cbn [app Nat.add] in Hs2.
  destruct (mark_loop speed Cell.immunize constants.IMMUNE
              (fun j => j + ninfected) (Z.to_nat ninfected)
              (fun _ => eq_refl)
              (fun k => ltac:(lia))
              (Z.to_nat nimmune) 0 s2
              (replicate (Z.to_nat ninfected) constants.INFECTED) rest
              (length_replicate _ _) Hs2)
    as (s3 & -> & Hs3).
  exists s3. split; [reflexivity | exact Hs3].
Qed.

Lemma count_by_sickness (p : Cell.t -> bool) (q : Z -> bool)
    (pop : list Cell.t) :
  (forall c, p c = q (Cell.sickness c)) ->
  count p pop = length (List.filter q (Cell.sickness <$> pop)).
Proof.
  intros Hpq. unfold count. induction pop as [| c pop IH]; [reflexivity |].
  cbn. rewrite Hpq. destruct (q (Cell.sickness c)); cbn; lia.
Qed.

Lemma filter_replicate (q : Z -> bool) n v :
  length (List.filter q (replicate n v)) = if q v then n else 0%nat.
Proof.
  induction n as [| n IH]; cbn; [destruct (q v); reflexivity |].
  destruct (q v); cbn; lia.
Qed.

Lemma count_profile (q : Z -> bool) (a b c : nat) (u v w : Z) :
  length (List.filter q (replicate a u ++ replicate b v ++ replicate c w))
  = ((if q u then a else 0) + (if q v then b else 0)
     + (if q w then c else 0))%nat.
Proof.
  rewrite !List.filter_app, !length_app, !filter_replicate. lia.
Qed.

(** C4, as the code has it.  With both counts inside their bounds and
    at least one cell left to start vulnerable, the constructor returns
    a model at time 0 with [cells] cells, of which [ninfected] are
    infected, [nimmune] are immune and the other
    [cells - ninfected - nimmune] are vulnerable. *)
Theorem new_population_counts cells speed ninfected nimmune :
  exclusive_states ->
  0 < ninfected < cells -> 0 <= nimmune < cells ->
  ninfected + nimmune < cells ->
  exists m,
    Model.new cells speed ninfected nimmune = python.Return m
    /\ Model.time m = 0
    /\ Z.of_nat (length (Model.population m)) = cells
    /\ Z.of_nat (count Cell.is_infected (Model.population m)) = ninfected
    /\ Z.of_nat (count Cell.is_immune (Model.population m)) = nimmune
    /\ Z.of_nat (count Cell.is_vulnerable (Model.population m))
       = cells - ninfected - nimmune.
Proof.
  intros (Hvi & Hmi & Hmv) H1 H2 H3.
  destruct (init_profile cells speed ninfected nimmune H1 H2 H3)
    as (s & Hrun & Hs).
  exists (Model.mk (Model.built s) 0). unfold Model.new. rewrite Hrun.
  cbn [Model.population Model.time].
  split; [reflexivity |]. split; [reflexivity |]. split; [| split; [| split]].
  - rewrite <- (length_fmap Cell.sickness), Hs.
    rewrite !length_app, !length_replicate. lia.
  - rewrite (count_by_sickness _ (fun z => z >=? constants.INFECTED))
      by reflexivity.
    rewrite Hs, count_profile.
    destruct (Z.geb_spec constants.INFECTED constants.INFECTED); [| lia].
    destruct (Z.geb_spec constants.IMMUNE constants.INFECTED); [lia |].
    destruct (Z.geb_spec constants.VULNERABLE constants.INFECTED); lia.
  - rewrite (count_by_sickness _ (fun z => z =? constants.IMMUNE))
      by reflexivity.
    rewrite Hs, count_profile.
    destruct (Z.eqb_spec constants.INFECTED constants.IMMUNE); [lia |].
    destruct (Z.eqb_spec constants.IMMUNE constants.IMMUNE); [| lia].
    destruct (Z.eqb_spec constants.VULNERABLE constants.IMMUNE); lia.
  - rewrite (count_by_sickness _ (fun z => z =? constants.VULNERABLE))
      by reflexivity.
    rewrite Hs, count_profile.
    destruct (Z.eqb_spec constants.INFECTED constants.VULNERABLE); [lia |].
    destruct (Z.eqb_spec constants.IMMUNE constants.VULNERABLE); [lia |].
    destruct (Z.eqb_spec constants.VULNERABLE constants.VULNERABLE); lia.
Qed.

End Constructor.

Section ConstructorFailures.
Context {K : constants.t} {R : runtime.t}.

Lemma init_without_vulnerable_cell cells speed ninfected nimmune :
  0 < ninfected < cells -> 0 <= nimmune < cells ->
  cells <= ninfected + nimmune ->
  Model.__init__ cells speed ninfected nimmune Model.fresh
  = (python.Raise python.IndexError, Model.fresh).
Proof.
  intros H1 H2 H3.
  destruct (checks_pass cells ninfected nimmune H1 H2) as [C1 C2].
  unfold Model.__init__. unfold Model.bind at 1.
  cbn [Model.reset_population Model.fresh Model.draws].
  rewrite C1, C2. unfold Model.range.
  rewrite (seqZ_nil 0 (cells - ninfected - nimmune - 0)) by lia.
  rewrite (seqZ_cons 0 (ninfected - 0)) by lia.
  reflexivity.
Qed.

(** The checks of the constructor: [ValueError] is raised exactly when
    a count is outside its bounds, and then nothing has been built and
    no random number has been drawn. *)
Lemma new_raises_ValueError_iff cells speed ninfected nimmune :
  (ninfected <= 0 \/ ninfected >= cells \/ nimmune < 0 \/ nimmune >= cells)
  <-> exists msg,
      Model.__init__ cells speed ninfected nimmune Model.fresh
      = (python.Raise (python.ValueError msg), Model.fresh).
Proof.
  split.
  - intros Hbad. unfold Model.__init__. unfold Model.bind at 1.
    cbn [Model.reset_population Model.fresh Model.draws].
    destruct ((ninfected >=? cells) || (ninfected <=? 0)) eqn:C1;
      [eexists; reflexivity |].
    destruct ((nimmune >=? cells) || (nimmune <? 0)) eqn:C2;
      [eexists; reflexivity |].
    apply orb_false_elim in C1 as [C1a C1b].
    apply orb_false_elim in C2 as [C2a C2b].
    rewrite Z.geb_leb in C1a, C2a.
    apply Z.leb_gt in C1a, C1b, C2a. apply Z.ltb_ge in C2b. lia.
  - intros (msg & Hrun).
    destruct (Z_le_gt_dec ninfected 0); [lia |].
    destruct (Z_ge_lt_dec ninfected cells); [lia |].
    destruct (Z_lt_ge_dec nimmune 0); [lia |].
    destruct (Z_ge_lt_dec nimmune cells); [lia |].
    exfalso.
    destruct (Z_lt_le_dec (ninfected + nimmune) cells) as [Hlt | Hle].
    + destruct (init_profile cells speed ninfected nimmune) as (s & Hs & _);
        try lia.
      rewrite Hs in Hrun. discriminate.
    + rewrite init_without_vulnerable_cell in Hrun by lia. discriminate.
Qed.

(** C1, where the code departs from it.  With both counts inside their
    bounds but no cell left to start vulnerable
    ([cells <= ninfected + nimmune]), the constructor raises
    [IndexError], which is not the error of the two checks: the first
    turn of the second loop reads [population[0]] in a population that
    is still empty. *)
Theorem new_raises_IndexError_when_no_cell_is_left
    cells speed ninfected nimmune :
  0 < ninfected < cells -> 0 <= nimmune < cells ->
  cells <= ninfected + nimmune ->
  Model.__init__ cells speed ninfected nimmune Model.fresh
  = (python.Raise python.IndexError, Model.fresh)
  /\ Model.new cells speed ninfected nimmune = python.Raise python.IndexError.
Proof.
  intros H1 H2 H3.
  pose proof (init_without_vulnerable_cell cells speed ninfected nimmune
                H1 H2 H3) as Hrun.
  split; [exact Hrun |]. unfold Model.new. rewrite Hrun. reflexivity.
Qed.

End ConstructorFailures.

(** ** Infection along a chain within one scan *)

Section Replay.
Context {K : constants.t} {R : runtime.t}.

Lemma replay_snoc log e (pop : list Cell.t) :
  replay (log ++ [e]) pop
  = match e with
    | Model.ContactWith i j => Cell.contact_with i j (replay log pop)
    | Model.CellTick i => alter Cell.tick i (replay log pop)
    | Model.EnforceBounds i => alter Model.enforce_bounds i (replay log pop)
    end.
Proof. unfold replay. rewrite foldl_snoc. reflexivity. Qed.

Lemma check_pair_replay (pop : list Cell.t) i j
    (st : Model.outcome (list Cell.t)) :
  Model.after st = replay (Model.calls st) pop ->
  Model.after (Model.check_pair i j st)
  = replay (Model.calls (Model.check_pair i j st)) pop.
Proof.
  intros Hst. unfold Model.check_pair.
  destruct (Model.raised st); [exact Hst |].
  destruct (Model.after st !! i), (Model.after st !! j); try exact Hst.
  destruct (Point.distance _ _) as [e | dist]; [exact Hst |].
  destruct (negb (j =? i)%nat); [| exact Hst].
  destruct (dist <? constants.CELL_RADIUS)%float; [| exact Hst].
  cbn [Model.after Model.calls]. rewrite replay_snoc, <- Hst. reflexivity.
Qed.

Lemma foldl_replay (pop : list Cell.t)
    (body : nat -> Model.outcome (list Cell.t)
            -> Model.outcome (list Cell.t)) :
  (forall x st, Model.after st = replay (Model.calls st) pop ->
                Model.after (body x st)
                = replay (Model.calls (body x st)) pop) ->
  forall (l : list nat) st,
    Model.after st = replay (Model.calls st) pop ->
    Model.after (foldl (fun st x => body x st) st l)
    = replay (Model.calls (foldl (fun st x => body x st) st l)) pop.
Proof.
  intros Hbody l. induction l as [| x l IH]; intros st Hst; cbn.
  - exact Hst.
  - apply IH, Hbody, Hst.
Qed.

(** The population that [check_contacts] leaves is the one obtained by
    making the logged calls of [contact_with] in their order. *)
Lemma check_contacts_replay (m : Model.t) :
  Model.population (Model.after (Model.check_contacts m))
  = replay (Model.calls (Model.check_contacts m)) (Model.population m).
Proof.
  unfold Model.check_contacts. cbn [Model.after Model.calls Model.population].
  apply (foldl_replay (Model.population m) Model.check_row);
    [| reflexivity].
  intros i st Hst. unfold Model.check_row.
  apply (foldl_replay (Model.population m) (Model.check_pair i));
    [| exact Hst].
  intros j st'. apply check_pair_replay.
Qed.

End Replay.

(** The scan depends on the C library through the distances between the
    locations of the population only. *)

Section Library.
Context {K : constants.t} (R1 R2 : runtime.t).

Lemma foldl_agree (locs : list Point.t)
    (f g : nat -> Model.outcome (list Cell.t)
           -> Model.outcome (list Cell.t)) :
  (forall x st, Cell.location <$> Model.after st = locs ->
                f x st = g x st
                /\ Cell.location <$> Model.after (f x st) = locs) ->
  forall (l : list nat) st,
    Cell.location <$> Model.after st = locs ->
    foldl (fun st x => f x st) st l = foldl (fun st x => g x st) st l
    /\ Cell.location <$> Model.after (foldl (fun st x => f x st) st l)
       = locs.
Proof.
  intros Hfg l. induction l as [| x l IH]; intros st Hst; cbn;
    [split; [reflexivity | exact Hst] |].
  destruct (Hfg x st Hst) as [<- Hl]. apply IH, Hl.
Qed.

Lemma check_contacts_agree (m : Model.t) :
  (forall p q,
      p ∈ Cell.location <$> Model.population m ->
      q ∈ Cell.location <$> Model.population m ->
      Point.distance (R := R1) p q = Point.distance (R := R2) p q) ->
  Model.check_contacts (R := R1) m = Model.check_contacts (R := R2) m.
Proof.
  intros Hd. set (locs := Cell.location <$> Model.population m) in *.
  assert (Hpair : forall i j st,
    Cell.location <$> Model.after st = locs ->
    Model.check_pair (R := R1) i j st = Model.check_pair (R := R2) i j st
    /\ Cell.location <$> Model.after (Model.check_pair (R := R1) i j st)
       = locs).
  { intros i j st Hst.
    split; [| apply (check_pair_follows (R := R1) locs i j st Hst)].
    unfold Model.check_pair.
    destruct (Model.raised st); [reflexivity |].
    destruct (Model.after st !! i) as [ci |] eqn:Hi; [| reflexivity].
    destruct (Model.after st !! j) as [cj |] eqn:Hj; [| reflexivity].
    rewrite Hd; [reflexivity | |]; rewrite <- Hst;
      apply list_elem_of_fmap; eexists; (split; [reflexivity |]);
      eapply list_elem_of_lookup_2; eassumption. }
  assert (Hrow : forall i st,
    Cell.location <$> Model.after st = locs ->
    Model.check_row (R := R1) i st = Model.check_row (R := R2) i st
    /\ Cell.location <$> Model.after (Model.check_row (R := R1) i st)
       = locs).
  { intros i st Hst. unfold Model.check_row.
    apply (foldl_agree locs (Model.check_pair (R := R1) i)
             (Model.check_pair (R := R2) i)); [| exact Hst].
    intros j st'. apply Hpair. }
  unfold Model.check_contacts.
  destruct (foldl_agree locs (Model.check_row (R := R1))
              (Model.check_row (R := R2)) Hrow
              (seq 0 (length (Model.population m)))
              (Model.mk_outcome (Model.population m) [] None) eq_refl)
    as [-> _].
  reflexivity.
Qed.

End Library.

(** C10.  In the row [chain] of three cells ten apart, with contact
    radius 15, the cell at index 1 and the cell at index 2 are vulnerable
    when [check_contacts] starts, and the cell at index 2 passes the
    distance test with no cell that is infected at that moment.  The scan
    first infects the cell at index 1; its later call
    [population[1].contact_with(population[2])] finds the cell at index 1
    infected and the cell at index 2 still vulnerable, and infects it.
    The scan returns, and both are infected when it does: each test reads
    the states as the earlier calls of the same scan left them.  The two
    squares that the scan asks of the C library are those of 10 and of
    20, which it is taken to compute exactly. *)
Theorem infection_chains_within_one_scan {R : runtime.t} :
  runtime.pow 10 2 = (100%float, None) ->
  runtime.pow 20 2 = (400%float, None) ->
  exists (m : Model.t) (b c : nat) (before after : list Model.event),
    let pop := Model.population m in
    let out := Model.check_contacts (K := pj02) m in
    Cell.at_ref (Cell.is_vulnerable (K := pj02)) pop b = true
    /\ Cell.at_ref (Cell.is_vulnerable (K := pj02)) pop c = true
    /\ (forall a ca cc,
           pop !! a = Some ca -> pop !! c = Some cc ->
           Cell.is_infected (K := pj02) ca = true ->
           near (K := pj02) ca cc = false /\ near (K := pj02) cc ca = false)
    /\ Model.raised out = None
    /\ Model.calls out = before ++ Model.ContactWith b c :: after
    /\ Cell.at_ref (Cell.is_infected (K := pj02))
         (replay (K := pj02) before pop) b = true
    /\ Cell.at_ref (Cell.is_vulnerable (K := pj02))
         (replay (K := pj02) before pop) c = true
    /\ Cell.at_ref (Cell.is_infected (K := pj02))
         (replay (K := pj02) (before ++ [Model.ContactWith b c]) pop) c = true
    /\ Model.population (Model.after out)
       = replay (K := pj02) (Model.calls out) pop
    /\ Cell.at_ref (Cell.is_infected (K := pj02))
         (Model.population (Model.after out)) b
       = true
    /\ Cell.at_ref (Cell.is_infected (K := pj02))
         (Model.population (Model.after out)) c
       = true.
Proof.
  intros H10 H20.
  assert (Hd : forall p q,
    p ∈ Cell.location <$> Model.population chain ->
    q ∈ Cell.location <$> Model.population chain ->
    Point.distance (R := R) p q = Point.distance (R := still) p q).
  { intros p q Hp Hq. cbn in Hp, Hq.
    repeat (apply elem_of_cons in Hp as [-> | Hp]);
      [| | | apply elem_of_nil in Hp; contradiction];
      repeat (apply elem_of_cons in Hq as [-> | Hq]);
      try (apply elem_of_nil in Hq; contradiction);
      unfold Point.distance, Point.square; cbn;
      rewrite ?H10, ?H20; reflexivity. }
  pose proof (check_contacts_agree (K := pj02) R still chain Hd) as Hscan.
  exists chain, 1%nat, 2%nat, [Model.ContactWith 0 1],
    [Model.ContactWith 2 1].
  cbv zeta. rewrite Hscan. split; [reflexivity |]. split; [reflexivity |].
  split.
  - intros a ca cc Ha Hc Hinf.
    injection Hc as <-.
    destruct a as [| [| [| a]]]; cbn in Ha; try discriminate;
      injection Ha as <-; try discriminate Hinf.
    unfold near, within. rewrite !Hd by (cbn; repeat constructor).
    split; reflexivity.
  - repeat (split; [reflexivity |]). reflexivity.
Qed.

Lemma infection_chains_within_one_scan_witness :
  exists (m : Model.t) (b c : nat),
    Cell.at_ref (Cell.is_vulnerable (K := pj02)) (Model.population m) b = true
    /\ Cell.at_ref (Cell.is_vulnerable (K := pj02)) (Model.population m) c
       = true
    /\ Model.raised (Model.check_contacts (K := pj02) (R := still) m) = None
    /\ Cell.at_ref (Cell.is_infected (K := pj02))
         (Model.population
            (Model.after (Model.check_contacts (K := pj02) (R := still) m)))
         c
       = true.
Proof.
  destruct (infection_chains_within_one_scan (R := still) eq_refl eq_refl)
    as (m & b & c & before & after & Hb & Hc & _ & Hr & _ & _ & _ & _ & _
        & _ & Hic).
  exists m, b, c. auto.
Defined.

(** ** The statements on concrete cells *)



(** C3, as the specification words it, lists [contract_disease] among the
    calls that leave an immune cell immune.  It does not: the call sets
    the sickness to [INFECTED] whatever it was. *)
Lemma contract_disease_ends_immunity :
  let store := [resting 0 (-1)] in
  Cell.at_ref (Cell.is_immune (K := pj02)) store 0 = true
  /\ Cell.at_ref (Cell.is_immune (K := pj02))
       (run (K := pj02) [CallContractDisease 0] store) 0 = false
  /\ Cell.at_ref (Cell.is_infected (K := pj02))
       (run (K := pj02) [CallContractDisease 0] store) 0 = true.
Proof. cbv zeta. repeat split. Qed.

Lemma immune_is_terminal_witness :
  let store := [resting 0 (-1); resting 10 1; resting 20 0] in
  let calls :=
    [CallContactWith 1 0; CallContactWith 0 1; CallTick 0;
     CallContractDisease 2; CallContactWith 0 2; CallContactWith 0 0;
     CallTick 0] in
  Cell.at_ref (Cell.is_immune (K := pj02)) store 0 = true
  /\ Cell.at_ref (Cell.is_immune (K := pj02)) (run (K := pj02) calls store) 0
     = true.
Proof.
  cbv zeta. split; [reflexivity |].
  apply (immune_is_terminal (K := pj02)).
  - reflexivity.
  - discriminate.
  - intros H. repeat (apply elem_of_cons in H as [H | H]; [discriminate H |]).
    apply elem_of_nil in H. exact H.
  - reflexivity.
Defined.

(** C6 on two cells ten apart, the first infected and the second
    vulnerable. *)
Lemma contact_with_transmits_once_witness :
  let store := [resting 0 1; resting 10 0] in
  Cell.contact_with (K := pj02) 0 1 store = [resting 0 1; resting 10 1]
  /\ Cell.contact_with (K := pj02) 1 0 store = [resting 0 1; resting 10 1].
Proof.
  cbv zeta.
  destruct (contact_with_transmits_once (K := pj02)
              [resting 0 1; resting 10 0] 0 1 (resting 0 1) (resting 10 0))
    as (_ & H & _).
  - discriminate.
  - reflexivity.
  - reflexivity.
  - destruct (H eq_refl eq_refl eq_refl) as (H1 & H2 & _).
    split; [exact H1 | exact H2].
Defined.

(** C4, as the specification words it, promises the counts for every
    [ninfected] and [nimmune] inside their bounds.  With 3 cells, 2
    infected and 2 immune both counts are inside their bounds, no
    population of 3 cells can hold them, and the constructor raises
    [IndexError]. *)
Lemma new_with_more_marked_cells_than_cells :
  0 < 2 < 3 /\ 0 <= 2 < 3
  /\ Model.new (K := pj02) (R := still) 3 5 2 2
     = python.Raise python.IndexError.
Proof. repeat split; try lia. Qed.

Lemma new_population_counts_witness :
  exists m,
    Model.new (K := pj02) (R := still) 10 5 3 2 = python.Return m
    /\ Model.time m = 0
    /\ Z.of_nat (length (Model.population m)) = 10
    /\ Z.of_nat (count (Cell.is_infected (K := pj02)) (Model.population m)) = 3
    /\ Z.of_nat (count (Cell.is_immune (K := pj02)) (Model.population m)) = 2
    /\ Z.of_nat (count (Cell.is_vulnerable (K := pj02)) (Model.population m))
       = 10 - 3 - 2.
Proof.
  apply (new_population_counts (K := pj02) (R := still) 10 5 3 2).
  - unfold exclusive_states. cbn. lia.
  - lia.
  - lia.
  - lia.
Defined.

(** The input on which the constructor departs from C1: 3 cells, 2
    infected and 1 immune. *)
Lemma new_raises_IndexError_when_no_cell_is_left_witness :
  0 < 2 < 3 /\ 0 <= 1 < 3
  /\ Model.new (K := pj02) (R := still) 3 5 2 1
     = python.Raise python.IndexError.
Proof.
  split; [lia |]. split; [lia |].
  apply (new_raises_IndexError_when_no_cell_is_left
           (K := pj02) (R := still) 3 5 2 1); lia.
Defined.

(** C5, as the specification words it, has every two cells within the
    contact radius brought into contact in every call.  In [stretched]
    the cells at the indices 0 and 2 are one unit apart, the first
    infected and the other vulnerable.  The scan first computes the
    distance between the cells at the indices 0 and 1; the square of
    their difference along x is out of the range of the floats and the
    call raises [OverflowError] there.  No contact has been made, and
    the cell at the index 2 is left vulnerable.  The scan ends in this
    way with every C library whose [pow] answers the square of [2^665]
    by infinity and a range error. *)
Lemma scan_stops_at_overflowing_distance :
  let pop := Model.population stretched in
  let out := Model.check_contacts (K := pj02) (R := still) stretched in
  pop !! 0%nat = Some (resting 0 1)
  /\ pop !! 1%nat = Some (resting 0x1p+665 0)
  /\ pop !! 2%nat = Some (resting 1 0)
  /\ Point.distance (R := still) (Cell.location (resting 0 1))
       (Cell.location (resting 1 0))
     = python.Return 1%float
  /\ near (K := pj02) (R := still) (resting 0 1) (resting 1 0) = true
  /\ near (K := pj02) (R := still) (resting 1 0) (resting 0 1) = true
  /\ Point.distance (R := still) (Cell.location (resting 0 1))
       (Cell.location (resting 0x1p+665 0))
     = python.Raise python.OverflowError
  /\ Model.raised out = Some python.OverflowError
  /\ Model.calls out = []
  /\ (Model.ContactWith 0 2 ∉ Model.calls out)
  /\ (Model.ContactWith 2 0 ∉ Model.calls out)
  /\ Model.after out = stretched
  /\ Cell.at_ref (Cell.is_vulnerable (K := pj02))
       (Model.population (Model.after out)) 2 = true
  /\ (forall R : runtime.t,
        runtime.pow 0x1p+665 2 = (infinity, Some runtime.ERANGE) ->
        Model.check_contacts (K := pj02) (R := R) stretched = out).
Proof.
  cbv zeta.
  assert (Hcalls : Model.calls (Model.check_contacts (K := pj02) (R := still)
                                   stretched) = []) by reflexivity.
  rewrite Hcalls.
  repeat split; try reflexivity; try apply not_elem_of_nil.
  intros R Hpow. apply check_contacts_agree. intros p q Hp Hq.
  cbn in Hp, Hq.
  repeat (apply elem_of_cons in Hp as [-> | Hp]);
    [| | | apply elem_of_nil in Hp; contradiction];
    repeat (apply elem_of_cons in Hq as [-> | Hq]);
    try (apply elem_of_nil in Hq; contradiction);
    unfold Point.distance, Point.square; cbn;
    rewrite ?Hpow; reflexivity.
Qed.

(** C5 on the row [chain]: the scan returns, and it brings the cells at
    the indices 1 and 2 into contact. *)
Lemma check_contacts_covers_every_pair_witness :
  let out := Model.check_contacts (K := pj02) (R := still) chain in
  Model.raised out = None
  /\ (Model.ContactWith 1 2 ∈ Model.calls out
      \/ Model.ContactWith 2 1 ∈ Model.calls out).
Proof.
  cbv zeta. split; [reflexivity |].
  destruct (check_contacts_covers_every_pair (K := pj02) (R := still) chain)
    as (_ & _ & _ & _ & _ & _ & H).
  destruct (H eq_refl) as [_ Hcov].
  apply (Hcov 1%nat 2%nat (resting 10 0) (resting 20 0));
    [discriminate | reflexivity | reflexivity | reflexivity].
Defined.

(** C8, as the specification words it, takes any positive x-velocity.
    The cell [grazing] is on the upper x-bound 200 with the x-velocity
    [2^-60]; the float sum [200 + 2^-60] is 200, the test
    [location.x > MAX_X] fails, and the velocity keeps its sign. *)
Lemma absorbed_step_is_not_reflected :
  let c' := Model.enforce_bounds (K := pj02) (Cell.tick (K := pj02) grazing) in
  Point.x (Cell.location grazing) = constants.MAX_X (t := pj02)
  /\ (0 <? Point.x (Cell.direction grazing))%float = true
  /\ Point.x (Cell.location c') = constants.MAX_X (t := pj02)
  /\ Point.x (Cell.direction c') = Point.x (Cell.direction grazing)
  /\ (Point.x (Cell.direction c') <? 0)%float = false.
Proof. cbv zeta. repeat split. Qed.

Lemma reflection_at_upper_x_bound_witness :
  let c := Cell.mk (Point.mk 200 0) (Point.mk 5 0) 0 in
  let c' := Model.enforce_bounds (K := pj02) (Cell.tick (K := pj02) c) in
  Point.x (Cell.location c') = 200%float
  /\ (Point.x (Cell.direction c') <? 0)%float = true.
Proof.
  cbv zeta.
  destruct (reflection_at_upper_x_bound (K := pj02)
              (Cell.mk (Point.mk 200 0) (Point.mk 5 0) 0))
    as (H1 & H2 & _).
  - reflexivity.
  - reflexivity.
  - reflexivity.
  - reflexivity.
  - split; [exact H1 | exact H2].
Defined.

(** ** The arena *)

Section Arena.
Context {K : constants.t}.

Lemma bounce_inside hi lo (pv : float * float) :
  (hi <? lo)%float = false ->
  (hi <? (bounce hi lo pv).1)%float = false
  /\ ((bounce hi lo pv).1 <? lo)%float = false.
Proof.
  intros Hb. unfold bounce.
  destruct (hi <? pv.1)%float eqn:E1; cbn [fst snd].
  - rewrite Hb. cbn [fst]. split; [apply ltb_irreflexive | exact Hb].
  - destruct (pv.1 <? lo)%float eqn:E2; cbn [fst].
    + split; [exact Hb | apply ltb_irreflexive].
    + split; assumption.
Qed.

Lemma bounce_fixed hi lo (pv : float * float) :
  (hi <? pv.1)%float = false -> (pv.1 <? lo)%float = false ->
  bounce hi lo pv = pv.
Proof. intros H1 H2. unfold bounce. rewrite H1, H2. reflexivity. Qed.

Lemma enforce_bounds_of_inside (c : Cell.t) :
  inside c = true -> Model.enforce_bounds c = c.
Proof.
  unfold inside. intros H.
  apply andb_prop in H as [H H4]. apply andb_prop in H as [H H3].
  apply andb_prop in H as [H1 H2].
  apply negb_true_iff in H1, H2, H3, H4.
  rewrite enforce_bounds_by_axis. cbv zeta.
  rewrite !bounce_fixed by assumption.
  destruct c as [[x y] [dx dy] s]. reflexivity.
Qed.

(** X4.  When neither lower bound is above its upper bound,
    [enforce_bounds] returns a cell of which none of its four tests
    holds any more, with the same sickness; it leaves a cell of which
    none of the tests holds as it is, and so a second call changes
    nothing. *)
Theorem enforce_bounds_brings_inside (c : Cell.t) :
  (constants.MAX_X <? constants.MIN_X)%float = false ->
  (constants.MAX_Y <? constants.MIN_Y)%float = false ->
  inside (Model.enforce_bounds c) = true
  /\ Cell.sickness (Model.enforce_bounds c) = Cell.sickness c
  /\ (inside c = true -> Model.enforce_bounds c = c)
  /\ Model.enforce_bounds (Model.enforce_bounds c) = Model.enforce_bounds c.
Proof.
  intros Hx Hy.
  assert (Hin : inside (Model.enforce_bounds c) = true).
  { rewrite enforce_bounds_by_axis. cbv zeta. unfold inside.
    cbn [Cell.location Point.x Point.y].
    destruct (bounce_inside constants.MAX_X constants.MIN_X
                (Point.x (Cell.location c), Point.x (Cell.direction c)) Hx)
      as [-> ->].
    destruct (bounce_inside constants.MAX_Y constants.MIN_Y
                (Point.y (Cell.location c), Point.y (Cell.direction c)) Hy)
      as [-> ->].
    reflexivity. }
  split; [exact Hin |]. split; [| split].
  - rewrite enforce_bounds_by_axis. reflexivity.
  - apply enforce_bounds_of_inside.
  - apply enforce_bounds_of_inside, Hin.
Qed.

End Arena.

Lemma enforce_bounds_brings_inside_witness :
  let c := Cell.mk (Point.mk 250 (-300)) (Point.mk 5 (-5)) 1 in
  inside (K := pj02) c = false
  /\ Model.enforce_bounds (K := pj02) c
     = Cell.mk (Point.mk 200 (-200)) (Point.mk (-5) 5) 1
  /\ inside (K := pj02) (Model.enforce_bounds (K := pj02) c) = true.
Proof.
  cbv zeta. split; [reflexivity |]. split; [reflexivity |].
  apply (enforce_bounds_brings_inside (K := pj02)); reflexivity.
Defined.

(** ** More on cells *)

Section MoreCells.
Context {K : constants.t}.

(** X5.  When the three disease predicates exclude one another, the
    colour follows the state: an infected cell is red, an immune cell is
    green and a vulnerable cell is gray; a cell is red after
    [contract_disease], green after [immunize] and gray when it has just
    been constructed. *)
Theorem color_follows_state (c : Cell.t) (loc dir : Point.t) :
  exclusive_states ->
  (Cell.is_infected c = true -> Cell.color c = "red"%string)
  /\ (Cell.is_immune c = true -> Cell.color c = "green"%string)
  /\ (Cell.is_vulnerable c = true -> Cell.color c = "gray"%string)
  /\ Cell.color (Cell.contract_disease c) = "red"%string
  /\ Cell.color (Cell.immunize c) = "green"%string
  /\ Cell.color (Cell.__init__ loc dir) = "gray"%string.
Proof.
  intros (Hvi & Hmi & Hmv).
  assert (Himm : forall d, Cell.is_immune d = true ->
                           Cell.color d = "green"%string).
  { intros d Hd. unfold Cell.color. rewrite Hd.
    unfold Cell.is_immune in Hd. apply Z.eqb_eq in Hd.
    unfold Cell.is_infected. rewrite Hd.
    destruct (Z.geb_spec constants.IMMUNE constants.INFECTED); [lia |].
    reflexivity. }
  assert (Hvul : forall d, Cell.is_vulnerable d = true ->
                           Cell.color d = "gray"%string).
  { intros d Hd. unfold Cell.is_vulnerable in Hd. apply Z.eqb_eq in Hd.
    unfold Cell.color, Cell.is_infected, Cell.is_immune. rewrite Hd.
    destruct (Z.geb_spec constants.VULNERABLE constants.INFECTED); [lia |].
    destruct (Z.eqb_spec constants.VULNERABLE constants.IMMUNE); [lia |].
    reflexivity. }
  assert (Hinf : forall d, Cell.is_infected d = true ->
                           Cell.color d = "red"%string).
  { intros d Hd. unfold Cell.color. rewrite Hd. reflexivity. }
  repeat split.
  - apply Hinf.
  - apply Himm.
  - apply Hvul.
  - apply Hinf, contract_disease_infected.
  - apply Himm. unfold Cell.is_immune. cbn. apply Z.eqb_refl.
  - apply Hvul. unfold Cell.is_vulnerable. cbn. apply Z.eqb_refl.
Qed.

(** X6.  [Cell.tick] changes the disease state of infected cells only: a
    cell that is not infected and whose sickness does not exceed the
    recovery period keeps its sickness, and, when [IMMUNE < INFECTED], no
    tick makes a cell infected that was not. *)
Theorem tick_changes_infected_cells_only (c : Cell.t) :
  Cell.is_infected c = false ->
  (Cell.sickness c <= constants.RECOVERY_PERIOD ->
   Cell.sickness (Cell.tick c) = Cell.sickness c)
  /\ (constants.IMMUNE < constants.INFECTED ->
      Cell.is_infected (Cell.tick c) = false).
Proof.
  unfold Cell.is_infected. intros Hc. rewrite tick_sickness, Hc. cbv zeta.
  split.
  - intros Hle.
    destruct (Z.gtb_spec (Cell.sickness c) constants.RECOVERY_PERIOD);
      [lia | reflexivity].
  - intros Hlt.
    destruct (Cell.sickness c >? constants.RECOVERY_PERIOD); [| exact Hc].
    destruct (Z.geb_spec constants.IMMUNE constants.INFECTED);
      [lia | reflexivity].
Qed.

Lemma contact_with_missing (store : list Cell.t) i j :
  store !! i = None \/ store !! j = None ->
  Cell.contact_with i j store = store.
Proof.
  intros H. unfold Cell.contact_with.
  assert (H1 : Cell.at_ref Cell.is_infected store i
               && Cell.at_ref Cell.is_vulnerable store j = false).
  { unfold Cell.at_ref.
    destruct H as [-> | ->]; [reflexivity | apply andb_false_r]. }
  rewrite H1.
  assert (H2 : Cell.at_ref Cell.is_vulnerable store i
               && Cell.at_ref Cell.is_infected store j = false).
  { unfold Cell.at_ref.
    destruct H as [-> | ->]; [reflexivity | apply andb_false_r]. }
  rewrite H2. reflexivity.
Qed.

(** X7.  A contact has the same effect whichever of the two cells is
    [self]: [a.contact_with(b)] and [b.contact_with(a)] leave the same
    store, whatever the states of the two cells. *)
Theorem contact_with_symmetric (store : list Cell.t) (i j : nat) :
  Cell.contact_with i j store = Cell.contact_with j i store.
Proof.
  destruct (decide (i = j)) as [-> | Hij]; [reflexivity |].
  destruct (store !! i) as [ci |] eqn:Hi;
    [| rewrite !contact_with_missing by auto; reflexivity].
  destruct (store !! j) as [cj |] eqn:Hj;
    [| rewrite !contact_with_missing by auto; reflexivity].
  rewrite (contact_with_unfold store i j ci cj Hij Hi Hj).
  rewrite (contact_with_unfold store j i cj ci (not_eq_sym Hij) Hj Hi).
  destruct (Cell.is_vulnerable ci) eqn:Vi, (Cell.is_vulnerable cj) eqn:Vj.
  - rewrite (same_sickness_when_vulnerable ci cj Vi Vj).
    destruct (Cell.is_infected cj); cbn; [| reflexivity].
    apply list_alter_alter_ne. exact Hij.
  - destruct (Cell.is_infected ci), (Cell.is_infected cj); reflexivity.
  - destruct (Cell.is_infected ci), (Cell.is_infected cj); reflexivity.
  - destruct (Cell.is_infected ci), (Cell.is_infected cj); reflexivity.
Qed.

End MoreCells.

Lemma color_follows_state_witness :
  Cell.color (K := pj02) (resting 0 1) = "red"%string
  /\ Cell.color (K := pj02) (Cell.immunize (K := pj02) (resting 0 1))
     = "green"%string.
Proof.
  destruct (color_follows_state (K := pj02) (resting 0 1)
              (Point.mk 0 0) (Point.mk 0 0)) as (H1 & _ & _ & _ & H5 & _).
  - unfold exclusive_states. cbn. lia.
  - split; [apply H1; reflexivity | exact H5].
Defined.

Lemma tick_changes_infected_cells_only_witness :
  Cell.sickness (Cell.tick (K := pj02) (resting 0 0)) = 0
  /\ Cell.is_infected (K := pj02) (Cell.tick (K := pj02) (resting 0 (-1)))
     = false.
Proof.
  split.
  - apply (tick_changes_infected_cells_only (K := pj02) (resting 0 0));
      [reflexivity | cbn; lia].
  - apply (tick_changes_infected_cells_only (K := pj02) (resting 0 (-1)));
      [reflexivity | cbn; lia].
Defined.

(** ** What a scan and a step can change *)

Section Dynamics.
Context {K : constants.t} {R : runtime.t}.

Lemma foldl_keeps (P : list Cell.t -> Prop)
    (body : nat -> Model.outcome (list Cell.t)
            -> Model.outcome (list Cell.t)) :
  (forall x st, P (Model.after st) -> P (Model.after (body x st))) ->
  forall (l : list nat) st,
    P (Model.after st) ->
    P (Model.after (foldl (fun st x => body x st) st l)).
Proof.
  intros Hbody l. induction l as [| x l IH]; intros st Hst; cbn.
  - exact Hst.
  - apply IH, Hbody, Hst.
Qed.

Lemma check_contacts_keeps (P : list Cell.t -> Prop) (m : Model.t) :
  (forall i j s, P s -> P (Cell.contact_with i j s)) ->
  P (Model.population m) ->
  P (Model.population (Model.after (Model.check_contacts m))).
Proof.
  intros Hcontact Hm. unfold Model.check_contacts.
  cbn [Model.after Model.population].
  apply (foldl_keeps P Model.check_row); [| exact Hm].
  intros i st Hst. unfold Model.check_row.
  apply (foldl_keeps P (Model.check_pair i)); [| exact Hst].
  intros j st' Hst'. unfold Model.check_pair.
  destruct (Model.raised st'); [exact Hst' |].
  destruct (Model.after st' !! i), (Model.after st' !! j); try exact Hst'.
  destruct (Point.distance _ _) as [e | dist]; [exact Hst' |].
  destruct (negb (j =? i)%nat); [| exact Hst'].
  destruct (dist <? constants.CELL_RADIUS)%float; [| exact Hst'].
  cbn [Model.after]. apply Hcontact, Hst'.
Qed.

Lemma infecting_a_vulnerable_effect (store0 cur : list Cell.t) x :
  Forall2 untouched_or_infected store0 cur ->
  Cell.at_ref Cell.is_vulnerable cur x = true ->
  Forall2 untouched_or_infected store0 (alter Cell.contract_disease x cur).
Proof.
  intros Hrel Hx. apply Forall2_alter_r; [exact Hrel |].
  intros c0 c H0 Hc Hu. unfold Cell.at_ref in Hx. rewrite Hc in Hx.
  right. destruct Hu as [-> | [Hv ->]].
  - split; [exact Hx | reflexivity].
  - split; [exact Hv | reflexivity].
Qed.

Lemma contact_with_effect (store0 cur : list Cell.t) i j :
  Forall2 untouched_or_infected store0 cur ->
  Forall2 untouched_or_infected store0 (Cell.contact_with i j cur).
Proof.
  intros Hrel. unfold Cell.contact_with.
  match goal with
  | |- context [alter _ i ?s] => set (store1 := s)
  end.
  assert (H1 : Forall2 untouched_or_infected store0 store1).
  { unfold store1.
    destruct (Cell.at_ref Cell.is_infected cur i); cbn; [| exact Hrel].
    destruct (Cell.at_ref Cell.is_vulnerable cur j) eqn:Hv; [| exact Hrel].
    now apply infecting_a_vulnerable_effect. }
  destruct (Cell.at_ref Cell.is_vulnerable store1 i) eqn:Hv; cbn;
    [| exact H1].
  destruct (Cell.at_ref Cell.is_infected store1 j); [| exact H1].
  now apply infecting_a_vulnerable_effect.
Qed.

Lemma check_contacts_effect (m : Model.t) :
  Forall2 untouched_or_infected
    (Model.population m)
    (Model.population (Model.after (Model.check_contacts m))).
Proof.
  apply (check_contacts_keeps
           (Forall2 untouched_or_infected (Model.population m))).
  - intros i j s. apply contact_with_effect.
  - apply Forall_Forall2_diag, Forall_forall. intros c _. now left.
Qed.

Lemma tick_keeps_uninfected (c : Cell.t) :
  constants.IMMUNE < constants.INFECTED ->
  Cell.is_infected c = false -> Cell.is_infected (Cell.tick c) = false.
Proof.
  unfold Cell.is_infected. intros Hlt Hc. rewrite tick_sickness, Hc.
  cbv zeta.
  destruct (Cell.sickness c >? constants.RECOVERY_PERIOD); [| exact Hc].
  destruct (Z.geb_spec constants.IMMUNE constants.INFECTED);
    [lia | reflexivity].
Qed.

(** X8.  One call of [check_contacts] keeps the clock and the number of
    cells, and does to each cell one of two things only: it leaves the
    cell as it is, or it infects it by [contract_disease], and then the
    cell was vulnerable before the call.  No location, direction or
    sickness of a cell that was not vulnerable is changed. *)
Theorem check_contacts_only_infects_vulnerable (m : Model.t) :
  Forall2 untouched_or_infected
    (Model.population m)
    (Model.population (Model.after (Model.check_contacts m)))
  /\ length (Model.population (Model.after (Model.check_contacts m)))
     = length (Model.population m)
  /\ Model.time (Model.after (Model.check_contacts m)) = Model.time m.
Proof.
  pose proof (check_contacts_effect m) as H.
  split; [exact H |]. split.
  - symmetry. exact (Forall2_length _ _ _ H).
  - apply check_contacts_calls.
Qed.

Lemma contact_without_infected (store : list Cell.t) i j :
  Forall (fun c => Cell.is_infected c = false) store ->
  Cell.contact_with i j store = store.
Proof.
  intros Hall.
  assert (Hno : forall r, Cell.at_ref Cell.is_infected store r = false).
  { intros r. unfold Cell.at_ref. destruct (store !! r) as [c |] eqn:Hr;
      [| reflexivity].
    exact (proj1 (Forall_lookup _ _) Hall r c Hr). }
  unfold Cell.contact_with. rewrite (Hno i). cbn.
  rewrite (Hno j), andb_false_r. reflexivity.
Qed.

Lemma scan_without_infected (m : Model.t) :
  Forall (fun c => Cell.is_infected c = false) (Model.population m) ->
  Model.population (Model.after (Model.check_contacts m))
  = Model.population m.
Proof.
  intros Hall.
  apply (check_contacts_keeps (fun s => s = Model.population m));
    [| reflexivity].
  intros i j s ->. now apply contact_without_infected.
Qed.

Lemma is_complete_iff (m : Model.t) :
  (Model.is_complete m).1 = true
  <-> Forall (fun c => Cell.is_infected c = false) (Model.population m).
Proof.
  unfold Model.is_complete. rewrite is_complete_loop_true by lia.
  rewrite Forall_lookup. split.
  - intros H i c Hi. apply (H i c); [lia | exact Hi].
  - intros H i c _ Hi. exact (H i c Hi).
Qed.

Lemma enforce_bounds_sickness (c : Cell.t) :
  Cell.sickness (Model.enforce_bounds c) = Cell.sickness c.
Proof. rewrite enforce_bounds_by_axis. reflexivity. Qed.

Lemma tick_population (m : Model.t) :
  Model.after (Model.tick m)
  = Model.after
      (Model.check_contacts
         (Model.mk ((fun c => Model.enforce_bounds (Cell.tick c))
                    <$> Model.population m)
                   (Model.time m + 1))).
Proof. rewrite tick_unfold. reflexivity. Qed.

(** X9.  A scan of a population with no infected cell changes nothing,
    whether it returns or raises, and a population with no infected cell
    has none after any number of calls of [Model.tick] (when
    [IMMUNE < INFECTED]): once [is_complete] answers true, it answers
    true for ever. *)
Theorem complete_stays_complete (m : Model.t) (n : nat) :
  constants.IMMUNE < constants.INFECTED ->
  (Model.is_complete m).1 = true ->
  Model.after (Model.check_contacts m) = m
  /\ (Model.is_complete (run_ticks n m)).1 = true.
Proof.
  intros Hlt Hdone. split.
  - apply is_complete_iff in Hdone.
    pose proof (scan_without_infected m Hdone) as Hpop.
    destruct (check_contacts_calls m) as (_ & _ & _ & Htime).
    destruct (Model.after (Model.check_contacts m)) as [pop t],
      m as [pop0 t0].
    cbn in Hpop, Htime. congruence.
  - induction n as [| n IH]; [exact Hdone |].
    change (run_ticks (S n) m)
      with (Model.after (Model.tick (run_ticks n m))).
    apply is_complete_iff in IH. apply is_complete_iff.
    rewrite tick_population.
    assert (Hmoved :
      Forall (fun c => Cell.is_infected c = false)
        ((fun c => Model.enforce_bounds (Cell.tick c))
         <$> Model.population (run_ticks n m))).
    { apply Forall_fmap. eapply Forall_impl; [exact IH |].
      intros c Hc. cbn. unfold Cell.is_infected.
      rewrite enforce_bounds_sickness.
      exact (tick_keeps_uninfected c Hlt Hc). }
    rewrite scan_without_infected by exact Hmoved. exact Hmoved.
Qed.

(** X10.  [n] calls of [Model.tick] add [n] to the clock and keep the
    number of cells, whether the calls return or raise. *)
Theorem run_ticks_clock_and_size (m : Model.t) (n : nat) :
  Model.time (run_ticks n m) = Model.time m + Z.of_nat n
  /\ length (Model.population (run_ticks n m)) = length (Model.population m).
Proof.
  induction n as [| n [IHt IHl]]; [cbn; split; [lia | reflexivity] |].
  change (run_ticks (S n) m)
      with (Model.after (Model.tick (run_ticks n m))).
  rewrite tick_population.
  destruct (check_contacts_calls
              (Model.mk ((fun c => Model.enforce_bounds (Cell.tick c))
                         <$> Model.population (run_ticks n m))
                        (Model.time (run_ticks n m) + 1)))
    as (Hloc & _ & _ & Htime).
  split.
  - rewrite Htime. cbn [Model.time]. lia.
  - apply (f_equal length) in Hloc. rewrite !length_fmap in Hloc.
    cbn [Model.population] in Hloc. rewrite length_fmap in Hloc.
    congruence.
Qed.

(** X11.  One step of the simulation moves the disease state of each
    cell along the chain vulnerable, infected, immune and never back
    (when the three states exclude one another and
    [VULNERABLE <= RECOVERY_PERIOD]): a vulnerable cell is vulnerable or
    just infected afterwards; an infected cell has its sickness raised by
    one, or is immune if that exceeds the recovery period; an immune cell
    is immune.  In each case the cell is where [Cell.tick] and
    [enforce_bounds] put it. *)
Theorem tick_follows_the_disease_chain (m : Model.t) (i : nat) (c : Cell.t) :
  exclusive_states ->
  constants.VULNERABLE <= constants.RECOVERY_PERIOD ->
  Model.population m !! i = Some c ->
  exists c',
    Model.population (Model.after (Model.tick m)) !! i = Some c'
    /\ Cell.location c' = Cell.location (Model.enforce_bounds (Cell.tick c))
    /\ Cell.direction c' = Cell.direction (Model.enforce_bounds (Cell.tick c))
    /\ (Cell.is_vulnerable c = true ->
        Cell.sickness c' = constants.VULNERABLE
        \/ Cell.sickness c' = constants.INFECTED)
    /\ (Cell.is_infected c = true ->
        Cell.sickness c'
        = if Cell.sickness c + 1 >? constants.RECOVERY_PERIOD
          then constants.IMMUNE else Cell.sickness c + 1)
    /\ (Cell.is_immune c = true -> Cell.sickness c' = constants.IMMUNE).
Proof.
  intros (Hvi & Hmi & Hmv) Hvr Hi.
  set (c1 := Model.enforce_bounds (Cell.tick c)).
  pose proof (check_contacts_effect
                (Model.mk ((fun c => Model.enforce_bounds (Cell.tick c))
                           <$> Model.population m) (Model.time m + 1)))
    as Hrel.
  cbn [Model.population] in Hrel. rewrite <- tick_population in Hrel.
  assert (H1 : ((fun c => Model.enforce_bounds (Cell.tick c))
                <$> Model.population m) !! i = Some c1)
    by (rewrite list_lookup_fmap, Hi; reflexivity).
  destruct (Forall2_lookup_l _ _ _ _ _ Hrel H1) as (c' & Hc' & Hu).
  exists c'. split; [exact Hc' |].
  assert (Hs1 : Cell.sickness c1 = Cell.sickness (Cell.tick c))
    by apply enforce_bounds_sickness.
  rewrite tick_sickness in Hs1. cbv zeta in Hs1.
  assert (Hgeo : Cell.location c' = Cell.location c1
                 /\ Cell.direction c' = Cell.direction c1).
  { destruct Hu as [-> | [_ ->]]; split; reflexivity. }
  destruct Hgeo as [Hl Hd].
  split; [exact Hl |]. split; [exact Hd |].
  assert (Hsick : Cell.sickness c' = Cell.sickness c1
                  \/ (Cell.sickness c1 = constants.VULNERABLE
                      /\ Cell.sickness c' = constants.INFECTED)).
  { destruct Hu as [-> | [Hv ->]]; [now left | right].
    unfold Cell.is_vulnerable in Hv. apply Z.eqb_eq in Hv.
    split; [exact Hv | reflexivity]. }
  unfold Cell.is_vulnerable, Cell.is_infected, Cell.is_immune.
  split; [| split].
  - intros Hv. apply Z.eqb_eq in Hv. rewrite Hv in Hs1.
    destruct (Z.geb_spec constants.VULNERABLE constants.INFECTED);
      [lia |].
    destruct (Z.gtb_spec constants.VULNERABLE constants.RECOVERY_PERIOD);
      [lia |].
    destruct Hsick as [-> | [_ ->]]; auto.
  - intros Hinf. rewrite Hinf in Hs1.
    destruct Hsick as [-> | [Hv _]]; [exact Hs1 |].
    rewrite Hv in Hs1. apply Z.geb_le in Hinf.
    destruct (Cell.sickness c + 1 >? constants.RECOVERY_PERIOD); lia.
  - intros Him. apply Z.eqb_eq in Him. rewrite Him in Hs1.
    destruct (Z.geb_spec constants.IMMUNE constants.INFECTED); [lia |].
    assert (Hc1 : Cell.sickness c1 = constants.IMMUNE)
      by (destruct (constants.IMMUNE >? constants.RECOVERY_PERIOD);
          exact Hs1).
    destruct Hsick as [-> | [Hv _]]; [exact Hc1 | congruence].
Qed.

End Dynamics.

Lemma complete_stays_complete_witness :
  let m := Model.mk [resting 0 0; resting 10 (-1)] 0 in
  (Model.is_complete (K := pj02) m).1 = true
  /\ (Model.is_complete (K := pj02)
        (run_ticks (K := pj02) (R := still) 5 m)).1 = true.
Proof.
  cbv zeta. split; [reflexivity |].
  apply (complete_stays_complete (K := pj02) (R := still)); reflexivity.
Defined.

Lemma tick_follows_the_disease_chain_witness :
  exists c',
    Model.population (Model.after (Model.tick (K := pj02) (R := still) chain))
      !! 1%nat = Some c'
    /\ (Cell.sickness c' = 0 \/ Cell.sickness c' = 1).
Proof.
  destruct (tick_follows_the_disease_chain (K := pj02) (R := still) chain 1
              (resting 10 0)) as (c' & H1 & _ & _ & H2 & _).
  - unfold exclusive_states. cbn. lia.
  - cbn. lia.
  - reflexivity.
  - exists c'. split; [exact H1 | apply H2; reflexivity].
Defined.

(** ** Cells out of reach *)

Section Isolation.
Context {K : constants.t} {R : runtime.t}.

Lemma contact_with_elsewhere (store : list Cell.t) i j k :
  k <> i -> k <> j -> Cell.contact_with i j store !! k = store !! k.
Proof.
  intros Hi Hj. unfold Cell.contact_with.
  repeat match goal with
         | |- context [if ?b then _ else _] => destruct b
         end;
    rewrite ?list_lookup_alter_ne by congruence; reflexivity.
Qed.

Lemma replay_elsewhere (log : list Model.event) (pop : list Cell.t) k :
  (forall e, e ∈ log ->
             exists i j, e = Model.ContactWith i j /\ i <> k /\ j <> k) ->
  replay log pop !! k = pop !! k.
Proof.
  revert pop. induction log as [| e log IH]; intros pop Hlog; [reflexivity |].
  unfold replay. cbn [foldl]. fold (replay log).
  change (foldl _ ?p log) with (replay log p).
  rewrite IH by (intros e' He'; apply Hlog; now right).
  destruct (Hlog e) as (i & j & -> & Hi & Hj); [now left |].
  apply contact_with_elsewhere; congruence.
Qed.

(** X12.  A cell that fails the distance test of the scan with every
    other cell, in both orders of the two arguments, comes out of
    [check_contacts] as it went in: infection does not reach a cell that
    is out of the contact radius of all the others. *)
Theorem isolated_cell_is_untouched (m : Model.t) (k : nat) (ck : Cell.t) :
  Model.population m !! k = Some ck ->
  (forall j cj, j <> k -> Model.population m !! j = Some cj ->
                near ck cj = false /\ near cj ck = false) ->
  Model.population (Model.after (Model.check_contacts m)) !! k = Some ck.
Proof.
  intros Hk Hfar. rewrite check_contacts_replay, <- Hk.
  apply replay_elsewhere. intros e He.
  apply check_contacts_logged in He.
  apply elem_of_scan_calls in He
    as (i & j & p & q & -> & _ & Hne & Hp & Hq & Hd).
  exists i, j. split; [reflexivity |].
  rewrite list_lookup_fmap in Hp, Hq.
  destruct (Model.population m !! i) as [ci |] eqn:Hi; [| discriminate].
  destruct (Model.population m !! j) as [cj |] eqn:Hj; [| discriminate].
  cbn in Hp, Hq. injection Hp as <-. injection Hq as <-.
  split.
  - intros ->. rewrite Hk in Hi. injection Hi as <-.
    destruct (Hfar j cj Hne Hj) as [Hn _]. unfold near in Hn. congruence.
  - intros ->. rewrite Hk in Hj. injection Hj as <-.
    destruct (Hfar i ci (not_eq_sym Hne) Hi) as [_ Hn].
    unfold near in Hn. congruence.
Qed.

End Isolation.

Lemma isolated_cell_is_untouched_witness :
  let m := Model.mk [resting 0 1; resting 10 0; resting 100 0] 0 in
  Model.population
    (Model.after (Model.check_contacts (K := pj02) (R := still) m)) !! 2%nat
  = Some (resting 100 0).
Proof.
  cbv zeta. apply (isolated_cell_is_untouched (K := pj02) (R := still)).
  - reflexivity.
  - intros j cj Hj Hlook.
    destruct j as [| [| [| j]]]; cbn in Hlook; try discriminate;
      try (injection Hlook as <-; split; reflexivity).
    contradiction.
Defined.

(** ** The cells of a new model, one by one *)

Section Layout.
Context {K : constants.t} {R : runtime.t}.

Lemma append_new_cell_in_order speed s r s' :
  drawn_in_order speed s ->
  Model.append_new_cell speed s = (r, s') ->
  drawn_in_order speed s'.
Proof.
  intros [Hd Hcells] Hrun.
  assert (Hs' : Model.append_new_cell speed s
    = (python.Return tt,
       Model.mk_building
         (Model.built s
          ++ [Cell.mk
                (Point.mk
                   (runtime.random_stream (Model.draws s)
                    * constants.BOUNDS_WIDTH - constants.MAX_X)%float
                   (runtime.random_stream (S (Model.draws s))
                    * constants.BOUNDS_HEIGHT - constants.MAX_Y)%float)
                (Point.mk
                   (runtime.cos
                      (2 * runtime.pi
                       * runtime.random_stream (S (S (Model.draws s))))
                    * speed)%float
                   (runtime.sin
                      (2 * runtime.pi
                       * runtime.random_stream (S (S (Model.draws s))))
                    * speed)%float)
                constants.VULNERABLE])
         (S (S (S (Model.draws s))))))
    by reflexivity.
  rewrite Hs' in Hrun. injection Hrun as _ <-. split.
  - cbn [Model.built Model.draws]. rewrite length_app. cbn [length]. lia.
  - cbn [Model.built]. intros j c Hj.
    apply lookup_app_Some in Hj as [Hj | [Hlen Hj]]; [now apply Hcells |].
    destruct (j - length (Model.built s))%nat as [| d] eqn:Hjd;
      [| destruct d; discriminate].
    cbn in Hj. injection Hj as <-. cbn [Cell.location Cell.direction].
    assert (Hj3 : Model.draws s = (3 * j)%nat) by lia.
    unfold drawn_location, drawn_direction. rewrite Hj3.
    replace (S (3 * j)) with (3 * j + 1)%nat by lia.
    replace (S (3 * j + 1)) with (3 * j + 2)%nat by lia.
    split; reflexivity.
Qed.

Lemma update_item_in_order speed i (method : Cell.t -> Cell.t) s r s' :
  (forall c, Cell.location (method c) = Cell.location c
             /\ Cell.direction (method c) = Cell.direction c) ->
  drawn_in_order speed s ->
  Model.update_item i method s = (r, s') ->
  drawn_in_order speed s'.
Proof.
  intros Hmethod [Hd Hcells] Hrun. unfold Model.update_item in Hrun.
  destruct (Model.slot (length (Model.built s)) i) as [n |];
    injection Hrun as _ <-; [| split; assumption].
  split.
  - cbn [Model.built Model.draws]. rewrite length_alter. exact Hd.
  - cbn [Model.built]. intros j c Hj.
    destruct (decide (n = j)) as [-> | Hne].
    + rewrite list_lookup_alter_eq in Hj.
      destruct (Model.built s !! j) as [c0 |] eqn:Hc0; [| discriminate].
      cbn in Hj. injection Hj as <-.
      destruct (Hmethod c0) as [-> ->]. now apply Hcells.
    + rewrite list_lookup_alter_ne in Hj by exact Hne. now apply Hcells.
Qed.

Lemma bind_keeps {A B} (P : Model.building -> Prop)
    (m : Model.ctor A) (k : A -> Model.ctor B) s r s' :
  (forall r1 s1, m s = (r1, s1) -> P s1) ->
  (forall a s1 r2 s2, P s1 -> k a s1 = (r2, s2) -> P s2) ->
  Model.bind m k s = (r, s') -> P s'.
Proof.
  intros Hm Hk Hrun. unfold Model.bind in Hrun.
  destruct (m s) as [[e | a] s1] eqn:Hms.
  - injection Hrun as _ <-. now apply (Hm _ _ eq_refl).
  - apply (Hk a s1 r s'); [now apply (Hm _ _ eq_refl) | exact Hrun].
Qed.

Lemma for_each_keeps {A} (P : Model.building -> Prop)
    (body : A -> Model.ctor unit) (l : list A) :
  (forall v s r s', P s -> body v s = (r, s') -> P s') ->
  forall s r s', P s -> Model.for_each l body s = (r, s') -> P s'.
Proof.
  intros Hbody. induction l as [| v l IH]; intros s r s' Hs Hrun.
  - injection Hrun as _ <-. exact Hs.
  - cbn [Model.for_each] in Hrun.
    apply (bind_keeps P _ _ _ _ _) in Hrun; [exact Hrun | |].
    + intros r1 s1 H1. now apply (Hbody v s r1 s1).
    + intros _ s1 r2 s2 H1 H2. now apply (IH s1 r2 s2).
Qed.

Lemma init_in_order cells speed ninfected nimmune r s :
  Model.__init__ cells speed ninfected nimmune Model.fresh = (r, s) ->
  drawn_in_order speed s.
Proof.
  assert (Hfresh : drawn_in_order speed (Model.mk_building [] 0)).
  { split; [reflexivity |]. intros j c Hj. discriminate. }
  assert (Hmark : forall (i : Z -> Z) (method : Cell.t -> Cell.t) (v : Z)
                         s1 r1 s2,
    (forall c, Cell.location (method c) = Cell.location c
               /\ Cell.direction (method c) = Cell.direction c) ->
    drawn_in_order speed s1 ->
    Model.bind (Model.update_item (i v) method)
               (fun _ => Model.append_new_cell speed) s1 = (r1, s2) ->
    drawn_in_order speed s2).
  { intros i method v s1 r1 s2 Hmethod H1 Hrun.
    apply (bind_keeps (drawn_in_order speed) _ _ _ _ _) in Hrun;
      [exact Hrun | |].
    - intros r' s' H'. now apply (update_item_in_order speed (i v) method
                                    s1 r' s').
    - intros _ s' r' s'' H' H''.
      now apply (append_new_cell_in_order speed s' r' s''). }
  intros Hrun. unfold Model.__init__ in Hrun.
  apply (bind_keeps (drawn_in_order speed) _ _ _ _ _) in Hrun;
    [exact Hrun | |].
  - intros r1 s1 H1. injection H1 as _ <-. exact Hfresh.
  - intros _ s1 r2 s2 H1 H2.
    destruct ((ninfected >=? cells) || (ninfected <=? 0));
      [injection H2 as _ <-; exact H1 |].
    destruct ((nimmune >=? cells) || (nimmune <? 0));
      [injection H2 as _ <-; exact H1 |].
    apply (bind_keeps (drawn_in_order speed) _ _ _ _ _) in H2;
      [exact H2 | |].
    + intros r3 s3. apply for_each_keeps; [| exact H1].
      intros v s4 r4 s5. apply append_new_cell_in_order.
    + intros _ s3 r3 s4 H3 H4.
      apply (bind_keeps (drawn_in_order speed) _ _ _ _ _) in H4;
        [exact H4 | |].
      * intros r5 s5. apply for_each_keeps; [| exact H3].
        intros v s6 r6 s7.
        apply (Hmark (fun i => i) Cell.contract_disease v).
        intros c. split; reflexivity.
      * intros _ s5 r5 s6 H5. apply for_each_keeps; [| exact H5].
        intros v s6' r6 s7.
        apply (Hmark (fun j => j + ninfected) Cell.immunize v).
        intros c. split; reflexivity.
Qed.

Lemma profile_lookup (a b c j : nat) (u v w : Z) :
  (j < a + b + c)%nat ->
  (replicate a u ++ replicate b v ++ replicate c w) !! j
  = Some (if (j <? a)%nat then u else if (j <? a + b)%nat then v else w).
Proof.
  intros Hj.
  destruct (Nat.ltb_spec j a).
  - rewrite lookup_app_l by (rewrite length_replicate; lia).
    now apply lookup_replicate_2.
  - rewrite lookup_app_r by (rewrite length_replicate; lia).
    rewrite length_replicate.
    destruct (Nat.ltb_spec j (a + b)).
    + rewrite lookup_app_l by (rewrite length_replicate; lia).
      apply lookup_replicate_2. lia.
    + rewrite lookup_app_r by (rewrite length_replicate; lia).
      rewrite length_replicate. apply lookup_replicate_2. lia.
Qed.

(** X13.  When the constructor succeeds, it has drawn three random
    numbers per cell, and the cell at the index [j] has the location
    computed from the draws [3j] and [3j + 1], the direction computed
    from the draw [3j + 2], and a disease state fixed by its index: the
    first [ninfected] cells of the list are infected, the next [nimmune]
    are immune and the others are vulnerable. *)
Theorem new_cells_in_order cells speed ninfected nimmune :
  0 < ninfected < cells -> 0 <= nimmune < cells ->
  ninfected + nimmune < cells ->
  exists s,
    Model.__init__ cells speed ninfected nimmune Model.fresh
    = (python.Return tt, s)
    /\ Model.new cells speed ninfected nimmune
       = python.Return (Model.mk (Model.built s) 0)
    /\ Z.of_nat (Model.draws s) = 3 * cells
    /\ forall j : nat,
         Z.of_nat j < cells ->
         exists c,
           Model.built s !! j = Some c
           /\ Cell.location c = drawn_location j
           /\ Cell.direction c = drawn_direction speed j
           /\ Cell.sickness c = initial_sickness ninfected nimmune j.
Proof.
  intros H1 H2 H3.
  destruct (init_profile cells speed ninfected nimmune H1 H2 H3)
    as (s & Hrun & Hs).
  destruct (init_in_order cells speed ninfected nimmune _ s Hrun)
    as [Hd Hcells].
  assert (Hlen : Z.of_nat (length (Model.built s)) = cells).
  { rewrite <- (length_fmap Cell.sickness), Hs.
    rewrite !length_app, !length_replicate. lia. }
  exists s. split; [exact Hrun |]. split; [| split].
  - unfold Model.new. rewrite Hrun. reflexivity.
  - rewrite Hd. lia.
  - intros j Hj.
    destruct (lookup_lt_is_Some_2 (Model.built s) j) as [c Hc]; [lia |].
    exists c. split; [exact Hc |].
    destruct (Hcells j c Hc) as [Hl Hdir].
    split; [exact Hl |]. split; [exact Hdir |].
    assert (Hsj : (Cell.sickness <$> Model.built s) !! j
                  = Some (Cell.sickness c))
      by (rewrite list_lookup_fmap, Hc; reflexivity).
    rewrite Hs, profile_lookup in Hsj by lia.
    injection Hsj as <-. unfold initial_sickness.
    destruct (Nat.ltb_spec j (Z.to_nat ninfected)),
      (Z.ltb_spec (Z.of_nat j) ninfected); try lia.
    destruct (Nat.ltb_spec j (Z.to_nat ninfected + Z.to_nat nimmune)),
      (Z.ltb_spec (Z.of_nat j) (ninfected + nimmune)); lia.
Qed.

End Layout.

Lemma new_cells_in_order_witness :
  exists s,
    Model.__init__ (K := pj02) (R := still) 10 5 3 2 Model.fresh
    = (python.Return tt, s)
    /\ Z.of_nat (Model.draws s) = 3 * 10.
Proof.
  destruct (new_cells_in_order (K := pj02) (R := still) 10 5 3 2)
    as (s & H1 & _ & H2 & _); try lia.
  exists s. split; [exact H1 | exact H2].
Defined.

(** ** The checks of the constructor *)

Section Checks.
Context {K : constants.t} {R : runtime.t}.

(** X1.  [Model(cells, speed, ninfected, nimmune)] raises [ValueError]
    exactly when [ninfected <= 0], [ninfected >= cells], [nimmune < 0] or
    [nimmune >= cells]; the first message is that of the infected count
    whenever that count is out of its bounds.  When [ValueError] is
    raised the population is empty and no random number has been
    drawn. *)
Theorem new_checks_the_counts cells speed ninfected nimmune :
  ((ninfected <= 0 \/ ninfected >= cells \/ nimmune < 0 \/ nimmune >= cells)
   <-> exists msg,
       Model.new cells speed ninfected nimmune
       = python.Raise (python.ValueError msg))
  /\ (forall msg s,
        Model.__init__ cells speed ninfected nimmune Model.fresh
        = (python.Raise (python.ValueError msg), s) ->
        s = Model.fresh)
  /\ (ninfected <= 0 \/ ninfected >= cells ->
      Model.new cells speed ninfected nimmune
      = python.Raise
          (python.ValueError
             "Some number of the Cell objects must begin infected.")).
Proof.
  assert (Hnew : forall e,
    Model.new cells speed ninfected nimmune = python.Raise e
    <-> exists s,
        Model.__init__ cells speed ninfected nimmune Model.fresh
        = (python.Raise e, s)).
  { intros e. unfold Model.new.
    destruct (Model.__init__ cells speed ninfected nimmune Model.fresh)
      as [[e' | u] s]; split.
    - intros H. injection H as ->. eauto.
    - intros (s' & H). injection H as -> _. reflexivity.
    - discriminate.
    - intros (s' & H). discriminate. }
  assert (Hbad_of : forall msg s,
    Model.__init__ cells speed ninfected nimmune Model.fresh
    = (python.Raise (python.ValueError msg), s) ->
    ninfected <= 0 \/ ninfected >= cells \/ nimmune < 0 \/ nimmune >= cells).
  { intros msg s H.
    destruct (Z_le_gt_dec ninfected 0); [lia |].
    destruct (Z_ge_lt_dec ninfected cells); [lia |].
    destruct (Z_lt_ge_dec nimmune 0); [lia |].
    destruct (Z_ge_lt_dec nimmune cells); [lia |].
    exfalso.
    destruct (Z_lt_le_dec (ninfected + nimmune) cells).
    - destruct (init_profile cells speed ninfected nimmune)
        as (s' & Hs' & _); try lia.
      rewrite Hs' in H. discriminate.
    - rewrite init_without_vulnerable_cell in H by lia. discriminate. }
  split; [| split].
  - split.
    + intros Hbad.
      destruct (proj1 (new_raises_ValueError_iff cells speed ninfected
                         nimmune) Hbad) as (msg & H).
      exists msg. apply Hnew. eauto.
    + intros (msg & H). apply Hnew in H as (s & H).
      exact (Hbad_of msg s H).
  - intros msg s H.
    pose proof (Hbad_of msg s H) as Hbad.
    destruct (proj1 (new_raises_ValueError_iff cells speed ninfected
                       nimmune) Hbad) as (msg' & H').
    rewrite H' in H. injection H as _ <-. reflexivity.
  - intros Hbad. unfold Model.new, Model.__init__. unfold Model.bind at 1.
    cbn [Model.reset_population Model.fresh Model.draws].
    assert (C1 : (ninfected >=? cells) || (ninfected <=? 0) = true).
    { apply orb_true_iff. rewrite Z.geb_leb.
      destruct Hbad; [right; apply Z.leb_le | left; apply Z.leb_le]; lia. }
    rewrite C1. reflexivity.
Qed.

End Checks.

(** ** Vector addition *)

Section Addition.

Lemma SF64add_comm X Y : SF64add X Y = SF64add Y X.
Proof.
  destruct X as [sx | sx | | sx mx ex], Y as [sy | sy | | sy my ey];
    try (destruct sx, sy; reflexivity);
    try (destruct sx; reflexivity);
    try (destruct sy; reflexivity);
    try reflexivity.
  unfold SF64add, SFadd. rewrite (Z.min_comm ey ex).
  match goal with
  | |- binary_normalize _ _ (?a + ?b) _ _ = _ => rewrite (Z.add_comm a b)
  end.
  reflexivity.
Qed.

Lemma add_comm (x y : float) : (x + y)%float = (y + x)%float.
Proof.
  apply Prim2SF_inj. rewrite !add_spec. apply SF64add_comm.
Qed.

Lemma add_zero (x : float) :
  x <> (-0)%float -> (x + 0)%float = x.
Proof.
  intros Hx. apply Prim2SF_inj. rewrite add_spec.
  change (Prim2SF 0%float) with (S754_zero false).
  destruct (Prim2SF x) as [s | s | | s m e] eqn:HX; try reflexivity.
  destruct s; [| reflexivity].
  exfalso. apply Hx. apply Prim2SF_inj. rewrite HX. reflexivity.
Qed.

(** X14.  [Point.add] does not depend on the order of the two points:
    the two sums have the same coordinates, the sign of a zero included
    (a NaN is one value here, whatever its sign and payload).  Adding
    the zero vector gives back the point itself when neither coordinate
    is the float [-0.0] (for which the sum is [0.0]). *)
Theorem add_commutes_and_zero_is_neutral (p q : Point.t) :
  Point.add p q = Point.add q p
  /\ (Point.x p <> (-0)%float -> Point.y p <> (-0)%float ->
      Point.add p (Point.mk 0 0) = p)
  /\ Point.add (Point.mk (-0) (-0)) (Point.mk 0 0) = Point.mk 0 0.
Proof.
  split; [| split].
  - unfold Point.add.
    rewrite (add_comm (Point.x p)), (add_comm (Point.y p)). reflexivity.
  - intros Hx Hy. destruct p as [x y]. unfold Point.add.
    cbn [Point.x Point.y] in *. rewrite (add_zero x Hx), (add_zero y Hy).
    reflexivity.
  - reflexivity.
Qed.

End Addition.

(** ** The population stays in the arena *)

Section InTheArena.
Context {K : constants.t} {R : runtime.t}.

Lemma enforce_bounds_inside (c : Cell.t) :
  (constants.MAX_X <? constants.MIN_X)%float = false ->
  (constants.MAX_Y <? constants.MIN_Y)%float = false ->
  inside (Model.enforce_bounds c) = true.
Proof.
  intros Hx Hy. rewrite enforce_bounds_by_axis. cbv zeta. unfold inside.
  cbn [Cell.location Point.x Point.y].
  destruct (bounce_inside constants.MAX_X constants.MIN_X
              (Point.x (Cell.location c), Point.x (Cell.direction c)) Hx)
    as [-> ->].
  destruct (bounce_inside constants.MAX_Y constants.MIN_Y
              (Point.y (Cell.location c), Point.y (Cell.direction c)) Hy)
    as [-> ->].
  reflexivity.
Qed.

(** X15.  When neither lower bound is above its upper bound, every cell
    of the population is inside the arena after [Model.tick], wherever
    the cells were before and whatever their speed: none of the four
    tests of [enforce_bounds] holds of any cell. *)
Theorem tick_leaves_every_cell_inside (m : Model.t) :
  (constants.MAX_X <? constants.MIN_X)%float = false ->
  (constants.MAX_Y <? constants.MIN_Y)%float = false ->
  Forall (fun c => inside c = true)
         (Model.population (Model.after (Model.tick m))).
Proof.
  intros Hx Hy. rewrite tick_population.
  pose proof (check_contacts_effect
                (Model.mk ((fun c => Model.enforce_bounds (Cell.tick c))
                           <$> Model.population m) (Model.time m + 1)))
    as Hrel.
  cbn [Model.population] in Hrel.
  apply Forall_lookup. intros i c' Hc'.
  destruct (Forall2_lookup_r _ _ _ _ _ Hrel Hc') as (c1 & Hc1 & Hu).
  rewrite list_lookup_fmap in Hc1.
  destruct (Model.population m !! i) as [c |]; [| discriminate].
  cbn in Hc1. injection Hc1 as <-.
  pose proof (enforce_bounds_inside (Cell.tick c) Hx Hy) as Hin.
  destruct Hu as [-> | [_ ->]]; exact Hin.
Qed.

End InTheArena.

Lemma tick_leaves_every_cell_inside_witness :
  let m := Model.mk [Cell.mk (Point.mk 199 0) (Point.mk 5 0) 0;
                     Cell.mk (Point.mk 0 (-500)) (Point.mk 0 (-1)) 1] 0 in
  Forall (fun c => inside (K := pj02) c = true)
         (Model.population
            (Model.after (Model.tick (K := pj02) (R := still) m))).
Proof.
  cbv zeta.
  apply (tick_leaves_every_cell_inside (K := pj02) (R := still));
    reflexivity.
Defined.
